(** * The i3 command parser (src/commands_parser.c)

    A shallow embedding of the hand-written command parser: the small
    stack of identified strings, the state transition [next_state], the
    token scanner inside [parse_command] and the error message it prints,
    followed by the properties of the parser that were checked on it. *)

From Stdlib Require Import Ascii String.
From stdpp Require Import base tactics option list numbers strings.

(** ** Ways in which the C code stops without returning

    [push_string] calls [exit(1)] when the stack is full, and a read
    through [walk] beyond the terminating NUL of the input leaves the
    buffer.  [OutOfFuel] belongs to the model alone: the main loop of
    [parse_command] need not terminate, so it is run for a bounded number
    of iterations. *)

Inductive abort := StackFull | OutOfBounds | OutOfFuel.

Inductive result (A : Type) :=
  | Ok (a : A)
  | Abort (why : abort).
Arguments Ok {A} a.
Arguments Abort {A} why.

#[global] Instance result_ret : MRet result := fun A a => Ok a.
#[global] Instance result_fmap : FMap result := fun A B f m =>
  match m with
  | Ok a => Ok (f a)
  | Abort why => Abort why
  end.
#[global] Instance result_bind : MBind result := fun A B f m =>
  match m with
  | Ok a => f a
  | Abort why => Abort why
  end.

(** ** Characters and C strings

    A C string is modelled by the [string] of its characters before the
    terminating NUL, so [strlen] is [String.length].  The buffer of a
    string [s] holds [String.length s + 1] bytes. *)

Definition NUL : ascii := "000"%char.
Definition dquote : ascii := "034"%char.
Definition squote : ascii := "039"%char.
Definition backslash : ascii := "092"%char.
Definition TAB : ascii := "009"%char.

Definition strlen (s : string) : nat := String.length s.

(** [s[i]] for a string whose buffer is known to be read in range:
    the terminating NUL at [strlen s]. *)
Definition char_at (s : string) (i : nat) : ascii :=
  match String.get i s with
  | Some c => c
  | None => NUL
  end.

(** [*walk] for [walk = input + i]: a read beyond the terminating NUL is
    outside of the buffer. *)
Definition peek (input : string) (i : nat) : result ascii :=
  if decide (i ≤ strlen input) then Ok (char_at input i) else Abort OutOfBounds.

(** [s + 1] for a non-empty C string. *)
Definition tail (s : string) : string :=
  match s with
  | EmptyString => EmptyString
  | String _ s' => s'
  end.

Definition tolower (c : ascii) : ascii :=
  let n := nat_of_ascii c in
  if (65 <=? n) && (n <=? 90) then ascii_of_nat (n + 32) else c.

(** ** The stack of identified strings *)

Record stack_entry := {
  identifier : option string;
  str : option string
}.

Definition null_entry : stack_entry := {| identifier := None; str := None |}.

(** [static struct stack_entry stack[10]], zero-initialised. *)
Definition empty_stack : list stack_entry := replicate 10 null_entry.

Definition entry (id s : string) : stack_entry :=
  {| identifier := Some id; str := Some s |}.

(** [stack[c]].  The array is a list of ten entries; no slot beyond them
    is ever read or written. *)
Definition slot (stack : list stack_entry) (c : nat) : stack_entry :=
  default null_entry (stack !! c).

(** The loop of [push_string], from slot [c] on; [n] slots are left. *)
Fixpoint push_string_from (n c : nat) (id s : string)
    (stack : list stack_entry) : result (list stack_entry) :=
  match n with
  | 0 => Abort StackFull
  | S n' =>
      match identifier (slot stack c) with
      | Some _ => push_string_from n' (S c) id s stack
      | None => Ok (<[c := entry id s]> stack)
      end
  end.

Definition push_string (id s : string) (stack : list stack_entry)
    : result (list stack_entry) :=
  push_string_from 10 0 id s stack.

(** The loop of [get_string], from slot [c] on. *)
Fixpoint get_string_from (n c : nat) (id : string)
    (stack : list stack_entry) : option string :=
  match n with
  | 0 => None
  | S n' =>
      match identifier (slot stack c) with
      | None => None
      | Some id' =>
          if String.eqb id id' then str (slot stack c)
          else get_string_from n' (S c) id stack
      end
  end.

Definition get_string (id : string) (stack : list stack_entry) : option string :=
  get_string_from 10 0 id stack.

Definition clear_stack (stack : list stack_entry) : list stack_entry :=
  foldl (fun st c => <[c := null_entry]> st) stack (seq 0 10).

Arguments push_string : simpl never.
Arguments get_string : simpl never.
Arguments clear_stack : simpl never.

(** A sequence of pushes, oldest first. *)
Fixpoint push_all (pushes : list (string * string))
    (stack : list stack_entry) : result (list stack_entry) :=
  match pushes with
  | [] => Ok stack
  | (id, s) :: pushes' => st ← push_string id s stack; push_all pushes' st
  end.

(** The string of the pair pushed first under [id]. *)
Fixpoint first_pushed (id : string) (pushes : list (string * string))
    : option string :=
  match pushes with
  | [] => None
  | (id', s) :: pushes' =>
      if String.eqb id id' then Some s else first_pushed id pushes'
  end.

(** The string of the pair pushed last under [id]. *)
Definition last_pushed (id : string) (pushes : list (string * string))
    : option string :=
  first_pushed id (rev pushes).

(** The slot is taken: its identifier is not NULL. *)
Definition occupied (e : stack_entry) : Prop := is_Some (identifier e).

(** ** States and tokens *)

(** Modelled from the spec: GENERATED_enums.h, which declares the states
    of the grammar, is generated and absent.  A state is an opaque
    identifier into the token table; [INITIAL] is the start state and
    [__CALL] is the target of a token that calls a function. *)
Inductive cmdp_state := INITIAL | STATE (n : nat) | __CALL.

#[global] Instance cmdp_state_eq_dec : EqDecision cmdp_state.
Proof. solve_decision. Defined.

Record cmdp_token := {
  name : string;
  tok_identifier : option string;
  (* This might be __CALL *)
  tok_next_state : cmdp_state;
  call_identifier : nat
}.

(** The file-level variables of the parser.  [dispatched] is a ghost
    field: the history of the values that calls have assigned to
    [json_output], oldest first. *)
Record parser := {
  state : cmdp_state;
  stack : list stack_entry;
  json_output : option string;
  dispatched : list (option string)
}.

Definition with_stack (p : parser) (st : list stack_entry) : parser :=
  {| state := state p; stack := st;
     json_output := json_output p; dispatched := dispatched p |}.

Definition push (id : option string) (s : string) (p : parser) : result parser :=
  match id with
  | Some id => st ← push_string id s (stack p); Ok (with_stack p st)
  | None => Ok p
  end.

(** ** Loops that advance [walk] *)

(** [while (cond) walk++], where [room] bytes of the buffer are left at
    [walk].  With no room left, the condition reads outside the buffer. *)
Fixpoint advance_while (cond : nat → result bool) (room walk : nat) : result nat :=
  match room with
  | 0 => Abort OutOfBounds
  | S room' =>
      b ← cond walk;
      if b : bool then advance_while cond room' (S walk) else Ok walk
  end.

Definition room (input : string) (walk : nat) : nat := S (strlen input) - walk.
Arguments room : simpl never.

Definition is_blank (c : ascii) : bool := ((c =? " ") || (c =? TAB))%char.

(** The condition of the loop that skips whitespace: [*walk] is a space
    or a tab, and is not NUL. *)
Definition blank_cond (input : string) (walk : nat) : result bool :=
  c ← peek input walk; Ok (is_blank c && negb (c =? NUL)%char).

(** The condition of the loop that looks for the closing double quote:
    [*walk] is not a double quote, or [*(walk-1)] is a backslash. *)
Definition quoted_cond (input : string) (walk : nat) : result bool :=
  c ← peek input walk;
  if negb (c =? dquote)%char then Ok true
  else p ← peek input (walk - 1); Ok (p =? backslash)%char.

(** The condition of the scan of a string: [*walk] is none of the
    delimiters semicolon, comma and NUL. *)
Definition string_cond (input : string) (walk : nat) : result bool :=
  c ← peek input walk;
  Ok (negb (c =? ";")%char && negb (c =? ",")%char && negb (c =? NUL)%char).

(** The condition of the scan of a word: [*walk] is none of the
    delimiters space, tab, closing square bracket, comma, semicolon and
    NUL. *)
Definition word_cond (input : string) (walk : nat) : result bool :=
  c ← peek input walk;
  Ok (negb (c =? " ")%char && negb (c =? TAB)%char && negb (c =? "]")%char &&
      negb (c =? ",")%char && negb (c =? ";")%char && negb (c =? NUL)%char).

Definition skip_whitespace (input : string) (walk : nat) : result nat :=
  advance_while (blank_cond input) (room input walk) walk.

(** [strncasecmp(walk, s2, n) == 0] *)
Fixpoint strncasecmp (input : string) (walk : nat) (s2 : string) (n : nat)
    : result bool :=
  match n with
  | 0 => Ok true
  | S n' =>
      c1 ← peek input walk;
      if negb (tolower c1 =? tolower (char_at s2 0))%char then Ok false
      else if (c1 =? NUL)%char then Ok true
      else strncasecmp input (S walk) (tail s2) n'
  end.

(** The scan of a string or a word: [beginning] and [walk] after it. *)
Definition scan_capture (token : cmdp_token) (input : string) (walk : nat)
    : result (nat * nat) :=
  c ← peek input walk;
  if (c =? dquote)%char then
    (* Handle quoted strings (or words). *)
    w ← advance_while (quoted_cond input) (room input (S walk)) (S walk);
    Ok (S walk, w)
  else if (char_at (name token) 0 =? "s")%char then
    w ← advance_while (string_cond input) (room input walk) walk;
    Ok (walk, w)
  else
    w ← advance_while (word_cond input) (room input walk) walk;
    Ok (walk, w).

(** ** The error message *)

(** A literal is copied to the error message enclosed with single quotes,
    any other token enclosed with angle brackets. *)
Definition token_label (token : cmdp_token) : string :=
  if (char_at (name token) 0 =? squote)%char
  then String squote (tail (name token) +:+ String squote EmptyString)
  else "<" +:+ name token +:+ ">".

Definition possible_tokens (toks : list cmdp_token) : string :=
  String.concat ", " (map token_label toks).

(** Contains the same amount of characters as the input has, but with
    the unparseable part highlighted using ^ characters. *)
Definition position (len walk : nat) : string :=
  string_of_list_ascii
    (map (fun i => if decide (walk ≤ i) then "^"%char else " "%char)
         (seq 0 len)).

Definition error_lines (toks : list cmdp_token) (input : string) (walk : nat)
    : list string :=
  [ "Expected one of these tokens: " +:+ possible_tokens toks;
    "Your command: " +:+ input;
    "              " +:+ position (strlen input) walk ].

Section Parser.

(** GENERATED_call.h and GENERATED_tokens.h are generated and absent;
    the call table and the token table are parameters.  The generated
    [GENERATED_call] is a function of this file: it gets the identifier
    of the call, reads the stack through [get_string], and can assign
    [state]; it returns the output of the function it calls. *)
Variable GENERATED_call :
  nat → cmdp_state → list stack_entry → option string * cmdp_state.
Variable tokens : cmdp_state → list cmdp_token.

Definition next_state (token : cmdp_token) (p : parser) : parser :=
  if decide (tok_next_state token = __CALL) then
    let '(output, st) :=
      GENERATED_call (call_identifier token) (state p) (stack p) in
    {| state := st; stack := clear_stack (stack p);
       json_output := output; dispatched := dispatched p ++ [output] |}
  else
    {| state := tok_next_state token;
       stack := if decide (tok_next_state token = INITIAL)
                then clear_stack (stack p) else stack p;
       json_output := json_output p; dispatched := dispatched p |}.

(** The body of the loop over the tokens of the current state, for one
    token: whether the token was handled, [walk] and the variables of
    the parser after it. *)
Definition try_token (token : cmdp_token) (input : string) (walk : nat)
    (p : parser) : result (bool * nat * parser) :=
  if (char_at (name token) 0 =? squote)%char then
    (* A literal. *)
    m ← strncasecmp input walk (tail (name token)) (strlen (name token) - 1);
    if m : bool then
      p1 ← push (tok_identifier token) (tail (name token)) p;
      Ok (true, walk + (strlen (name token) - 1), next_state token p1)
    else Ok (false, walk, p)
  else
    '(handled, walk, p) ←
      (if String.eqb (name token) "string" || String.eqb (name token) "word"
       then
         '(beginning, walk) ← scan_capture token input walk;
         if decide (walk ≠ beginning) then
           p1 ← push (tok_identifier token)
                     (substring beginning (walk - beginning) input) p;
           (* If we are at the end of a quoted string, skip the ending
              double quote. *)
           c ← peek input walk;
           Ok (true, if (c =? dquote)%char then S walk else walk,
               next_state token p1)
         else Ok (false, walk, p)
       else Ok (false, walk, p));
    if handled : bool then Ok (true, walk, p)
    else if String.eqb (name token) "end" then
      c ← peek input walk;
      if ((c =? NUL) || (c =? ",") || (c =? ";"))%char
      then Ok (true, S walk, next_state token p)
      else Ok (false, walk, p)
    else Ok (false, walk, p).

(** [for (c = 0; c < ptr->n; c++)]: the token that was handled, if any. *)
Fixpoint try_tokens (toks : list cmdp_token) (input : string) (walk : nat)
    (p : parser) : result (option cmdp_token * nat * parser) :=
  match toks with
  | [] => Ok (None, walk, p)
  | token :: toks' =>
      '(handled, walk', p') ← try_token token input walk p;
      if handled : bool then Ok (Some token, walk', p')
      else try_tokens toks' input walk' p'
  end.

(** The main loop of [parse_command], for at most [fuel] tokens: the
    variables of the parser when it is left, and the lines printed. *)
Fixpoint parse_loop (fuel : nat) (input : string) (walk : nat) (p : parser)
    : result (parser * list string) :=
  match fuel with
  | 0 => Abort OutOfFuel
  | S fuel' =>
      if decide (walk ≤ strlen input) then
        (* skip whitespace before every token *)
        walk ← skip_whitespace input walk;
        let ptr := tokens (state p) in
        '(handled, walk, p') ← try_tokens ptr input walk p;
        match handled with
        | Some _ => parse_loop fuel' input walk p'
        | None => Ok (p', error_lines ptr input walk)
        end
      else Ok (p, [])
  end.

(** [stack0] is the stack as the previous call left it: [parse_command]
    assigns [state] and [json_output] only. *)
Definition parse_run (fuel : nat) (input : string)
    (stack0 : list stack_entry) : result (parser * list string) :=
  parse_loop fuel input 0
    {| state := INITIAL; stack := stack0;
       json_output := None; dispatched := [] |}.

Definition parse_command (fuel : nat) (input : string)
    (stack0 : list stack_entry) : result (option string) :=
  r ← parse_run fuel input stack0; Ok (json_output r.1).

End Parser.

(** ** Notions used in the statements *)

(** [p1] is [p] after at most one push. *)
Definition pushed_onto (p p1 : parser) : Prop :=
  state p1 = state p ∧ json_output p1 = json_output p ∧
  dispatched p1 = dispatched p ∧
  (stack p1 = stack p ∨
   ∃ id s, push_string id s (stack p) = Ok (stack p1)).

(** The variables of the parser when [parse_command] enters its loop. *)
Definition start (stack0 : list stack_entry) : parser :=
  {| state := INITIAL; stack := stack0;
     json_output := None; dispatched := [] |}.

(** [json_output] is what the last call returned, or NULL. *)
Definition output_is_last (p : parser) : Prop :=
  json_output p = default None (last (dispatched p)).

(** A stack as the transitions keep it: ten slots, all of them empty
    whenever the parser is in the state INITIAL. *)
Definition clean (p : parser) : Prop :=
  length (stack p) = 10 ∧ (state p = INITIAL → stack p = empty_stack).

(** The token is a string or a word. *)
Definition capture_name (token : cmdp_token) : Prop :=
  name token = "string" ∨ name token = "word".

(** The double quote at [j], if there is one, comes after a backslash. *)
Definition escaped_at (input : string) (j : nat) : Prop :=
  char_at input j = dquote → char_at input (j - 1) = backslash.

(** The outcome of a token with [walk] moved by [o]. *)
Definition moved {A B} (o : nat) (r : A * nat * B) : A * nat * B :=
  (r.1.1, o + r.1.2, r.2).

(** The variables [p] of a parser that started without a history of calls,
    had it started with the history [d] and the output [j] instead. *)
Definition rebase (d : list (option string)) (j : option string) (p : parser)
    : parser :=
  {| state := state p; stack := stack p;
     json_output := match dispatched p with [] => j | _ => json_output p end;
     dispatched := d ++ dispatched p |}.

(** A name without a NUL and without a semicolon. *)
Fixpoint plain (s : string) : bool :=
  match s with
  | EmptyString => true
  | String c s' => negb (c =? NUL)%char && negb (c =? ";")%char && plain s'
  end.

Definition plain_names (tokens : cmdp_state → list cmdp_token) : Prop :=
  ∀ s token, token ∈ tokens s → plain (name token) = true.

(** The input [cmd1; cmd2]. *)
Definition two_commands (cmd1 cmd2 : string) : string :=
  cmd1 +:+ String ";" (String " " cmd2).

(** [s] between double quotes. *)
Definition quoted (s : string) : string :=
  String dquote (s +:+ String dquote EmptyString).

(** ** Two small grammars

    The grammar of the scenario [move <direction>]: the literal [move]
    leads from INITIAL to the state MOVE, where a word, identified as
    [direction], calls the function number 7.  At INITIAL the end token
    separates commands. *)

Definition mk_token (n : string) (id : option string) (next : cmdp_state)
    (call : nat) : cmdp_token :=
  {| name := n; tok_identifier := id; tok_next_state := next;
     call_identifier := call |}.

Definition MOVE : cmdp_state := STATE 1.

Definition move_tokens (s : cmdp_state) : list cmdp_token :=
  match s with
  | INITIAL => [mk_token "'move" None MOVE 0; mk_token "end" None INITIAL 0]
  | STATE 1 => [mk_token "word" (Some "direction") __CALL 7]
  | _ => []
  end.

(** A call table that reports the direction and goes back to INITIAL. *)
Definition move_call (id : nat) (st : cmdp_state) (stk : list stack_entry)
    : option string * cmdp_state :=
  (Some ("move " +:+ default "?" (get_string "direction" stk)), INITIAL).

(** A call table that reports the direction and does not assign [state]. *)
Definition output_call (id : nat) (st : cmdp_state) (stk : list stack_entry)
    : option string * cmdp_state :=
  (Some ("move " +:+ default "?" (get_string "direction" stk)), st).

(** A grammar that takes one [move] command per input: after the end of
    the command nothing but further ends is accepted. *)
Definition DONE : cmdp_state := STATE 2.

Definition once_tokens (s : cmdp_state) : list cmdp_token :=
  match s with
  | INITIAL => [mk_token "'move" None MOVE 0; mk_token "end" None DONE 0]
  | STATE 1 => [mk_token "word" (Some "direction") __CALL 7]
  | STATE 2 => [mk_token "end" None DONE 0]
  | _ => []
  end.

(** A state in which a string is tried before a word. *)
Definition string_then_word : list cmdp_token :=
  [mk_token "string" (Some "title") MOVE 0;
   mk_token "word" (Some "direction") MOVE 0].

(** Three inputs: [move] with a quoted word in which a backslash escapes
    a double quote; [move] with a quoted word that has no closing double
    quote; and an empty quoted string followed by [abc] and a double
    quote. *)
Definition escaped_input : string :=
  "move " +:+ quoted ("a\" +:+ String dquote "b").

Definition unterminated_input : string := "move " +:+ String dquote "far left".

Definition empty_quoted_input : string :=
  String dquote (String dquote ("abc" +:+ String dquote EmptyString)).

(** ** Further notions used in the statements *)

(** The pairs pushed since the stack was last cleared, oldest first,
    followed by empty slots. *)
Definition holds (pushes : list (string * string))
    (stk : list stack_entry) : Prop :=
  length pushes ≤ 10 ∧
  stk = map (fun '(id, s) => entry id s) pushes
        ++ replicate (10 - length pushes) null_entry.

Definition packed (stk : list stack_entry) : Prop := ∃ pushes, holds pushes stk.

(** The delimiters of an unquoted string and of an unquoted word. *)
Definition string_delimiter (c : ascii) : bool :=
  ((c =? ";") || (c =? ",") || (c =? NUL))%char.

Definition word_delimiter (c : ascii) : bool :=
  ((c =? " ") || (c =? TAB) || (c =? "]") || (c =? ",") || (c =? ";") ||
   (c =? NUL))%char.

(** A token whose name starts with [s] is scanned as a string, any other
    as a word. *)
Definition delimiter (token : cmdp_token) : ascii → bool :=
  if (char_at (name token) 0 =? "s")%char
  then string_delimiter else word_delimiter.

(** A string of characters other than NUL, as every C string is. *)
Fixpoint nul_free (s : string) : bool :=
  match s with
  | EmptyString => true
  | String c s' => negb (c =? NUL)%char && nul_free s'
  end.

(** The literal of length zero: a single quote and nothing after it. *)
Definition empty_literal : string := String squote EmptyString.

(** No double quote in the input. *)
Definition quote_free (input : string) : Prop :=
  ∀ i, char_at input i ≠ dquote.

(** The number of bytes that [parse_command] counts for the names of the
    tokens before it writes them to the error message: for every token
    the length of its name and of the four characters of a pair of single
    quotes, a comma and a space. *)
Definition tokenlen (toks : list cmdp_token) : nat :=
  foldl (fun n token => n + (strlen (name token) + strlen "'', ")) 0 toks.

(** * Properties *)

(** ** The stack *)

Section Stack.
Implicit Types (stk l : list stack_entry) (e : stack_entry) (id s : string).

Lemma push_string_from_shift n c id s e l :
  push_string_from n (S c) id s (e :: l)
  = cons e <$> push_string_from n c id s l.
Proof.
  revert c; induction n as [|n IH]; intros c; simpl; [done|].
  change (slot (e :: l) (S c)) with (slot l c).
  destruct (identifier (slot l c)); [apply IH | done].
Qed.

Lemma push_string_from_cons n id s e l :
  push_string_from (S n) 0 id s (e :: l)
  = match identifier e with
    | Some _ => cons e <$> push_string_from n 0 id s l
    | None => Ok (entry id s :: l)
    end.
Proof.
  simpl. change (slot (e :: l) 0) with e.
  destruct (identifier e); [apply push_string_from_shift | done].
Qed.

Lemma get_string_from_shift n c id e l :
  get_string_from n (S c) id (e :: l) = get_string_from n c id l.
Proof.
  revert c; induction n as [|n IH]; intros c; simpl; [done|].
  change (slot (e :: l) (S c)) with (slot l c).
  destruct (identifier (slot l c)); [|done].
  destruct (String.eqb _ _); [done | apply IH].
Qed.

Lemma get_string_from_cons n id e l :
  get_string_from (S n) 0 id (e :: l)
  = match identifier e with
    | None => None
    | Some id' =>
        if String.eqb id id' then str e else get_string_from n 0 id l
    end.
Proof.
  simpl. change (slot (e :: l) 0) with e.
  destruct (identifier e); [|done].
  destruct (String.eqb _ _); [done | apply get_string_from_shift].
Qed.

Lemma clear_stack_10 stk : length stk = 10 → clear_stack stk = empty_stack.
Proof.
  intros Hlen.
  do 11 (destruct stk as [|? stk]; simplify_eq/=; try done).
Qed.

Lemma clear_stack_length stk : length (clear_stack stk) = length stk.
Proof.
  unfold clear_stack. generalize (seq 0 10); intros cs.
  revert stk; induction cs as [|c cs IH]; intros stk; simpl; [done|].
  by rewrite IH, length_insert.
Qed.

Lemma get_string_empty id : get_string id empty_stack = None.
Proof. done. Qed.

Implicit Types (pre post : list stack_entry).

Lemma push_string_from_full id s stk :
  Forall occupied stk →
  push_string_from (length stk) 0 id s stk = Abort StackFull.
Proof.
  induction 1 as [|e l [id' He] _ IH]; [done|].
  cbn [length]. rewrite push_string_from_cons, He, IH. done.
Qed.

Lemma push_string_from_free id s pre e post :
  Forall occupied pre → identifier e = None →
  push_string_from (length (pre ++ e :: post)) 0 id s (pre ++ e :: post)
  = Ok (pre ++ entry id s :: post).
Proof.
  intros Hpre He. induction Hpre as [|e' l [id' He'] _ IH].
  - cbn [app length]. by rewrite push_string_from_cons, He.
  - cbn [app length]. by rewrite push_string_from_cons, He', IH.
Qed.

Lemma first_free_slot stk :
  Forall occupied stk ∨
  ∃ pre e post, stk = pre ++ e :: post ∧ Forall occupied pre ∧
                identifier e = None.
Proof.
  induction stk as [|e l IH]; [by left|].
  destruct (identifier e) as [id'|] eqn:He.
  - destruct IH as [IH | (pre & e' & post & -> & Hpre & He')].
    + left. constructor; [by exists id' | done].
    + right. exists (e :: pre), e', post.
      split_and!; [done | constructor; [by exists id' | done] | done].
  - right. by exists [], e, l.
Qed.

Lemma push_all_replicate pushes pre m :
  Forall occupied pre → length pre + m = 10 → length pushes ≤ m →
  push_all pushes (pre ++ replicate m null_entry)
  = Ok (pre ++ map (fun '(id, s) => entry id s) pushes
            ++ replicate (m - length pushes) null_entry).
Proof.
  revert pre m.
  induction pushes as [|[id s] pushes IH]; intros pre m Hpre Hten Hm.
  - cbn [push_all map length app]. by rewrite Nat.sub_0_r.
  - cbn [length] in Hm. destruct m as [|m]; [lia|].
    cbn [push_all replicate]. unfold push_string.
    replace 10 with (length (pre ++ null_entry :: replicate m null_entry))
      by (rewrite length_app; cbn [length]; rewrite length_replicate; lia).
    rewrite push_string_from_free by done.
    cbn [mbind result_bind].
    replace (pre ++ entry id s :: replicate m null_entry)
      with ((pre ++ [entry id s]) ++ replicate m null_entry)
      by (by rewrite <- app_assoc).
    rewrite IH.
    + cbn [map length]. rewrite <- app_assoc.
      by replace (S m - S (length pushes)) with (m - length pushes) by lia.
    + apply Forall_app. split; [done|]. repeat constructor. by eexists.
    + rewrite length_app. cbn [length]. lia.
    + lia.
Qed.

Lemma get_string_from_pushed id pushes m :
  get_string_from (length pushes + m) 0 id
    (map (fun '(id, s) => entry id s) pushes ++ replicate m null_entry)
  = first_pushed id pushes.
Proof.
  induction pushes as [|[id' s] pushes IH].
  - destruct m; [done|]. cbn [length map app Nat.add replicate].
    by rewrite get_string_from_cons.
  - cbn [length map app Nat.add first_pushed].
    rewrite get_string_from_cons. cbn [entry identifier str].
    destruct (String.eqb id id'); [done | apply IH].
Qed.

(** C8. [push_string] with all ten slots occupied stops the process
    ([exit(1)] after the message that the stack is full); with a free
    slot it stores the pair in a free slot and leaves every other slot
    as it was. *)
Theorem push_string_full_or_stored id s stk :
  length stk = 10 →
  ((∀ c, c < 10 → occupied (slot stk c)) →
     push_string id s stk = Abort StackFull) ∧
  ((∃ c, c < 10 ∧ ¬ occupied (slot stk c)) →
     ∃ c stk', c < 10 ∧ ¬ occupied (slot stk c) ∧
       push_string id s stk = Ok stk' ∧
       length stk' = 10 ∧
       stk' !! c = Some (entry id s) ∧
       ∀ c', c' ≠ c → stk' !! c' = stk !! c').
Proof.
  intros Hlen. split.
  - intros Hfull. unfold push_string. rewrite <- Hlen.
    apply push_string_from_full, Forall_lookup. intros c e Hc.
    specialize (Hfull c). unfold slot in Hfull. rewrite Hc in Hfull.
    apply Hfull. apply lookup_lt_Some in Hc. lia.
  - intros (c0 & Hc0 & Hfree).
    destruct (first_free_slot stk)
      as [Hocc | (pre & e & post & -> & Hpre & He)].
    + exfalso. apply Hfree.
      destruct (lookup_lt_is_Some_2 stk c0) as [e0 He0]; [lia|].
      unfold slot. rewrite He0. simpl.
      by eapply (proj1 (Forall_lookup _ _) Hocc).
    + exists (length pre), (pre ++ entry id s :: post).
      rewrite length_app in Hlen. cbn [length] in Hlen.
      split_and!.
      * lia.
      * unfold slot, occupied. rewrite list_lookup_middle by done.
        simpl. rewrite He. by intros [? ?].
      * unfold push_string.
        replace 10 with (length (pre ++ e :: post))
          by (rewrite length_app; cbn [length]; lia).
        by apply push_string_from_free.
      * rewrite length_app. cbn [length]. lia.
      * by apply list_lookup_middle.
      * intros c' Hc'.
        destruct (decide (c' < length pre)).
        -- by rewrite !lookup_app_l by done.
        -- rewrite !lookup_app_r by lia.
           destruct (c' - length pre) as [|k] eqn:Hk; [lia | done].
Qed.

Lemma push_string_full_or_stored_witness :
  let stk := <[0 := entry "a" "1"]> empty_stack in
  length stk = 10 ∧
  ((∀ c, c < 10 → occupied (slot stk c)) →
     push_string "b" "2" stk = Abort StackFull) ∧
  ((∃ c, c < 10 ∧ ¬ occupied (slot stk c)) →
     ∃ c stk', c < 10 ∧ ¬ occupied (slot stk c) ∧
       push_string "b" "2" stk = Ok stk' ∧
       length stk' = 10 ∧
       stk' !! c = Some (entry "b" "2") ∧
       ∀ c', c' ≠ c → stk' !! c' = stk !! c').
Proof.
  intros stk. split; [reflexivity|].
  apply (push_string_full_or_stored "b" "2" stk). reflexivity.
Defined.

(** C6 (amended). After pushing at most ten pairs onto the empty stack,
    [get_string] returns the string of the pair that was pushed FIRST
    under the identifier, and NULL when no pair has that identifier. *)
Theorem get_string_first_pushed pushes :
  length pushes ≤ 10 →
  ∃ stk, push_all pushes empty_stack = Ok stk ∧
         ∀ id, get_string id stk = first_pushed id pushes.
Proof.
  intros Hlen.
  pose proof (push_all_replicate pushes [] 10 (Forall_nil_2 _) eq_refl Hlen)
    as H.
  cbn [app] in H.
  eexists. split; [exact H|].
  intros id. unfold get_string.
  replace 10 with (length pushes + (10 - length pushes)) at 1 by lia.
  apply get_string_from_pushed.
Qed.

Lemma get_string_first_pushed_witness :
  ∃ stk, push_all [("a", "1"); ("b", "2"); ("a", "3")] empty_stack = Ok stk ∧
         ∀ id, get_string id stk
               = first_pushed id [("a", "1"); ("b", "2"); ("a", "3")].
Proof. apply get_string_first_pushed. simpl. lia. Defined.

(** C6, as stated, fails: of two pairs pushed under one identifier,
    [get_string] returns the string of the older one. *)
Lemma get_string_not_last_pushed :
  ¬ (∀ pushes stk id,
       push_all pushes empty_stack = Ok stk →
       get_string id stk = last_pushed id pushes).
Proof.
  intros H.
  specialize (H [("a", "1"); ("a", "2")] _ "a" eq_refl).
  vm_compute in H. discriminate H.
Qed.

End Stack.

(** ** The result monad *)

Lemma bind_Ok {A B} (m : result A) (f : A → result B) b :
  m ≫= f = Ok b ↔ ∃ a, m = Ok a ∧ f a = Ok b.
Proof.
  destruct m as [a|why]; simpl; split.
  - intros H. by exists a.
  - by intros (a' & [= <-] & H).
  - done.
  - by intros (a' & [=] & _).
Qed.

Lemma bind_Abort {A B} (m : result A) (f : A → result B) why :
  m = Abort why → m ≫= f = Abort why.
Proof. by intros ->. Qed.

Ltac inv_result :=
  repeat match goal with
  | H : _ ≫= _ = Ok _ |- _ =>
      apply bind_Ok in H; destruct H as (? & ? & H)
  | H : Abort _ = Ok _ |- _ => discriminate H
  | H : (let '(_, _) := ?x in _) = Ok _ |- _ => destruct x
  end; simplify_eq.

(** ** What a token leaves of the variables of the parser *)

Lemma push_pushed_onto id s p p1 : push id s p = Ok p1 → pushed_onto p p1.
Proof.
  destruct id as [id|]; simpl; intros H; inv_result.
  - repeat split; try done. right. by exists id, s.
  - repeat split; try done. by left.
Qed.

Section Tokens.
Variable GENERATED_call :
  nat → cmdp_state → list stack_entry → option string * cmdp_state.

#[local] Abbreviation next_state := (next_state GENERATED_call).
#[local] Abbreviation try_token := (try_token GENERATED_call).
#[local] Abbreviation try_tokens := (try_tokens GENERATED_call).

Lemma try_token_handled token input walk p w p' :
  try_token token input walk p = Ok (true, w, p') →
  ∃ p1, pushed_onto p p1 ∧ p' = next_state token p1.
Proof.
  unfold try_token. intros H.
  repeat (case_match; inv_result; simplify_eq/=);
    eauto using push_pushed_onto.
  all: eexists; split; [|done]; repeat split; try done; by left.
Qed.

Lemma try_token_unhandled token input walk p w p' :
  try_token token input walk p = Ok (false, w, p') → p' = p.
Proof.
  unfold try_token. intros H.
  by repeat (case_match; inv_result; simplify_eq/=).
Qed.

Lemma try_tokens_handled toks token input walk p w p' :
  try_tokens toks input walk p = Ok (Some token, w, p') →
  token ∈ toks ∧ ∃ p1, pushed_onto p p1 ∧ p' = next_state token p1.
Proof.
  revert walk p. induction toks as [|t toks IH]; intros walk p H.
  - done.
  - simpl in H. apply bind_Ok in H as ([[[] w1] p1] & Ht & H).
    + inv_result. apply try_token_handled in Ht.
      split; [constructor | done].
    + apply try_token_unhandled in Ht as Hp. subst p1.
      apply IH in H as [Hin Hp]. split; [by constructor | done].
Qed.

Lemma try_tokens_unhandled toks input walk p w p' :
  try_tokens toks input walk p = Ok (None, w, p') → p' = p.
Proof.
  revert walk p. induction toks as [|t toks IH]; intros walk p H.
  - simpl in H. by inv_result.
  - simpl in H. apply bind_Ok in H as ([[[] w1] p1] & Ht & H); [by inv_result|].
    apply try_token_unhandled in Ht as ->. by eapply IH.
Qed.

End Tokens.

(** ** Transitions *)

Lemma slot_insert_null (stk : list stack_entry) i c :
  slot (<[i := null_entry]> stk) c
  = if decide (i = c) then null_entry else slot stk c.
Proof.
  unfold slot. case_decide as Hic.
  - subst c. destruct (decide (i < length stk)).
    + by rewrite list_lookup_insert_eq.
    + rewrite list_insert_ge by lia. by rewrite lookup_ge_None_2 by lia.
  - by rewrite list_lookup_insert_ne.
Qed.

Lemma slot_foldl_insert_null (cs : list nat) (stk : list stack_entry) c :
  slot (foldl (fun st c => <[c := null_entry]> st) stk cs) c
  = if decide (c ∈ cs) then null_entry else slot stk c.
Proof.
  revert stk. induction cs as [|a cs IH]; intros stk; cbn [foldl].
  - rewrite decide_False; [done | apply not_elem_of_nil].
  - rewrite IH, slot_insert_null.
    destruct (decide (c ∈ cs)) as [Hcs|Hcs].
    + rewrite decide_True; [done | by right].
    + destruct (decide (a = c)) as [->|Hac].
      * rewrite decide_True; [done | by left].
      * rewrite decide_False; [done|].
        intros [->|?]%elem_of_cons; done.
Qed.

Lemma slot_clear_stack (stk : list stack_entry) c :
  c < 10 → slot (clear_stack stk) c = null_entry.
Proof.
  intros Hc. unfold clear_stack. rewrite slot_foldl_insert_null.
  rewrite decide_True; [done | apply elem_of_seq; lia].
Qed.

Lemma get_string_cleared id (stk : list stack_entry) :
  (∀ c, c < 10 → slot stk c = null_entry) → get_string id stk = None.
Proof.
  intros H. unfold get_string. cbn [get_string_from].
  rewrite H by lia. done.
Qed.

Section Transitions.
Variable GENERATED_call :
  nat → cmdp_state → list stack_entry → option string * cmdp_state.

#[local] Abbreviation next_state := (next_state GENERATED_call).
#[local] Abbreviation try_token := (try_token GENERATED_call).
#[local] Abbreviation try_tokens := (try_tokens GENERATED_call).

Lemma next_state_call token p :
  tok_next_state token = __CALL →
  next_state token p =
  let r := GENERATED_call (call_identifier token) (state p) (stack p) in
  {| state := r.2; stack := clear_stack (stack p);
     json_output := r.1; dispatched := dispatched p ++ [r.1] |}.
Proof.
  intros Hcall. unfold next_state. rewrite decide_True by done.
  by destruct (GENERATED_call _ _ _).
Qed.

Lemma next_state_cleared token p :
  tok_next_state token = __CALL ∨ state (next_state token p) = INITIAL →
  ∀ c, c < 10 → slot (stack (next_state token p)) c = null_entry.
Proof.
  intros H c Hc. revert H. unfold next_state.
  case_decide as Hcall.
  - intros _. destruct (GENERATED_call _ _ _). simpl.
    by apply slot_clear_stack.
  - simpl. intros [?| ->]; [done|]. rewrite decide_True by done.
    by apply slot_clear_stack.
Qed.

(** C3 (amended). When the token that was handled targets a call,
    [GENERATED_call] is called with the identifier of the call and with
    the stack as it is after the push of the token itself; its output
    becomes [json_output], the stack is cleared, and [next_state] returns
    without assigning [state]: the state is the one that [GENERATED_call]
    left. *)
Theorem call_sets_output_and_clears_stack toks token input walk p w p' :
  try_tokens toks input walk p = Ok (Some token, w, p') →
  tok_next_state token = __CALL →
  ∃ p1, pushed_onto p p1 ∧
    let r := GENERATED_call (call_identifier token) (state p) (stack p1) in
    json_output p' = r.1 ∧
    dispatched p' = dispatched p ++ [r.1] ∧
    stack p' = clear_stack (stack p1) ∧
    state p' = r.2.
Proof.
  intros Htry Hcall.
  apply try_tokens_handled in Htry as (_ & p1 & Hp1 & ->).
  exists p1. split; [done|].
  rewrite next_state_call by done.
  destruct Hp1 as (-> & _ & -> & _). done.
Qed.

(** C7. After a token was handled, if it called a function or if the
    parser is in the state INITIAL, all ten slots of the stack are empty,
    and [get_string] returns NULL for every identifier. *)
Theorem stack_empty_after_call_or_initial toks token input walk p w p' :
  try_tokens toks input walk p = Ok (Some token, w, p') →
  tok_next_state token = __CALL ∨ state p' = INITIAL →
  (∀ c, c < 10 → slot (stack p') c = null_entry) ∧
  (∀ id, get_string id (stack p') = None).
Proof.
  intros Htry Hcase.
  apply try_tokens_handled in Htry as (_ & p1 & _ & ->).
  assert (∀ c, c < 10 → slot (stack (next_state token p1)) c = null_entry)
    as Hclear by by apply next_state_cleared.
  split; [done|]. intros id. by apply get_string_cleared.
Qed.

End Transitions.

(** C3, as stated, fails: with a call table that does not assign [state],
    the parser is not in the state INITIAL after a call. *)
Lemma call_does_not_set_initial :
  ¬ (∀ GENERATED_call toks token input walk p w p',
       try_tokens GENERATED_call toks input walk p = Ok (Some token, w, p') →
       tok_next_state token = __CALL →
       state p' = INITIAL).
Proof.
  intros H.
  specialize (H output_call (move_tokens MOVE)
                (mk_token "word" (Some "direction") __CALL 7) "move left" 5
                {| state := MOVE; stack := empty_stack;
                   json_output := None; dispatched := [] |}
                _ _ eq_refl eq_refl).
  vm_compute in H. discriminate H.
Qed.

Lemma call_sets_output_and_clears_stack_witness :
  let p := {| state := MOVE; stack := empty_stack;
              json_output := None; dispatched := [] |} in
  let p' := {| state := MOVE; stack := empty_stack;
               json_output := Some "move left";
               dispatched := [Some "move left"] |} in
  ∃ p1, pushed_onto p p1 ∧
    let r := output_call 7 (state p) (stack p1) in
    json_output p' = r.1 ∧
    dispatched p' = dispatched p ++ [r.1] ∧
    stack p' = clear_stack (stack p1) ∧
    state p' = r.2.
Proof.
  intros p p'.
  apply (call_sets_output_and_clears_stack output_call (move_tokens MOVE)
           (mk_token "word" (Some "direction") __CALL 7) "move left" 5 p 9 p');
    reflexivity.
Defined.

Lemma stack_empty_after_call_or_initial_witness :
  let p' := {| state := INITIAL; stack := empty_stack;
               json_output := Some "move left";
               dispatched := [Some "move left"] |} in
  (∀ c, c < 10 → slot (stack p') c = null_entry) ∧
  (∀ id, get_string id (stack p') = None).
Proof.
  intros p'.
  apply (stack_empty_after_call_or_initial move_call (move_tokens MOVE)
           (mk_token "word" (Some "direction") __CALL 7) "move left" 5
           {| state := MOVE; stack := empty_stack;
              json_output := None; dispatched := [] |} 9 p');
    [reflexivity | left; reflexivity].
Defined.

(** ** Scans *)

Lemma peek_Ok input i : i ≤ strlen input → peek input i = Ok (char_at input i).
Proof. intros H. unfold peek. by rewrite decide_True. Qed.

Lemma peek_Abort input i : strlen input < i → peek input i = Abort OutOfBounds.
Proof. intros H. unfold peek. rewrite decide_False; [done | lia]. Qed.

Lemma advance_while_stops cond room walk e :
  walk ≤ e → e - walk < room →
  (∀ j, walk ≤ j < e → cond j = Ok true) → cond e = Ok false →
  advance_while cond room walk = Ok e.
Proof.
  revert walk. induction room as [|room IH]; intros walk Hle Hroom Htrue Hfalse;
    [lia|].
  cbn [advance_while]. destruct (decide (walk = e)) as [->|Hne].
  - by rewrite Hfalse.
  - rewrite Htrue by lia. cbn. apply IH; try done; [lia | lia |].
    intros j Hj. apply Htrue. lia.
Qed.

Lemma advance_while_overruns cond room walk :
  (∀ j, walk ≤ j < walk + room → cond j = Ok true) →
  advance_while cond room walk = Abort OutOfBounds.
Proof.
  revert walk. induction room as [|room IH]; intros walk Htrue; [done|].
  cbn [advance_while]. rewrite Htrue by lia. cbn.
  apply IH. intros j Hj. apply Htrue. lia.
Qed.

Lemma advance_while_Ok cond room walk e :
  advance_while cond room walk = Ok e →
  walk ≤ e < walk + room ∧ cond e = Ok false ∧
  ∀ j, walk ≤ j < e → cond j = Ok true.
Proof.
  revert walk. induction room as [|room IH]; intros walk H; [done|].
  cbn [advance_while] in H. apply bind_Ok in H as ([] & Hc & H).
  - apply IH in H as (Hle & Hfalse & Htrue). split_and!; [lia | lia | done |].
    intros j Hj. destruct (decide (j = walk)) as [->|]; [done|].
    apply Htrue. lia.
  - inv_result. split_and!; [lia | lia | done |]. intros j Hj. lia.
Qed.

Lemma quoted_cond_true input j :
  j ≤ strlen input → escaped_at input j → quoted_cond input j = Ok true.
Proof.
  intros Hj Hesc. unfold quoted_cond. rewrite (peek_Ok input j) by done. cbn.
  destruct (Ascii.eqb_spec (char_at input j) dquote) as [Hq|Hq]; cbn; [|done].
  rewrite peek_Ok by lia. cbn. rewrite (Hesc Hq). done.
Qed.

Lemma quoted_cond_false input j :
  j ≤ strlen input → char_at input j = dquote →
  char_at input (j - 1) ≠ backslash → quoted_cond input j = Ok false.
Proof.
  intros Hj Hq Hesc. unfold quoted_cond. rewrite (peek_Ok input j) by done. cbn.
  rewrite Hq. cbn. rewrite peek_Ok by lia. cbn.
  by destruct (Ascii.eqb_spec (char_at input (j - 1)) backslash).
Qed.

Section Captures.
Variable GENERATED_call :
  nat → cmdp_state → list stack_entry → option string * cmdp_state.

#[local] Abbreviation next_state := (next_state GENERATED_call).
#[local] Abbreviation try_token := (try_token GENERATED_call).
#[local] Abbreviation try_tokens := (try_tokens GENERATED_call).

(** What [try_token] does for a token named string or word. *)
Lemma try_token_capture token input walk p :
  capture_name token →
  try_token token input walk p =
  ('(beginning, walk') ← scan_capture token input walk;
   if decide (walk' ≠ beginning) then
     p1 ← push (tok_identifier token)
               (String.substring beginning (walk' - beginning) input) p;
     c ← peek input walk';
     Ok (true, if (c =? dquote)%char then S walk' else walk',
         next_state token p1)
   else Ok (false, walk', p)).
Proof.
  intros [Hn|Hn]; unfold try_token; rewrite Hn; cbn.
  all: destruct (scan_capture token input walk) as [[b w]|]; [|done]; cbn.
  all: case_decide; [|done].
  all: destruct (push _ _ _); [|done]; cbn.
  all: by destruct (peek input w).
Qed.

(** C2 (amended). In a quoted string or word, a double quote that comes
    after a backslash does not end the capture; the capture ends at the
    first double quote that does not come after a backslash, and the
    string that is pushed is the slice of the input between the quotes as
    it stands, backslashes included. *)
Theorem quoted_capture_is_raw_slice token input walk e p :
  capture_name token →
  char_at input walk = dquote →
  S walk < e ≤ strlen input →
  (∀ j, S walk ≤ j < e → escaped_at input j) →
  char_at input e = dquote → char_at input (e - 1) ≠ backslash →
  try_token token input walk p =
  (p1 ← push (tok_identifier token)
             (String.substring (S walk) (e - S walk) input) p;
   Ok (true, S e, next_state token p1)).
Proof.
  intros Hname Hopen He Hesc Hclose Hnesc.
  rewrite try_token_capture by done. unfold scan_capture.
  rewrite peek_Ok by lia. rewrite Hopen. cbn.
  rewrite (advance_while_stops _ _ _ e).
  - cbn. rewrite decide_True by lia.
    destruct (push _ _ _); [|done]. cbn.
    rewrite peek_Ok by lia. rewrite Hclose. done.
  - lia.
  - unfold room. lia.
  - intros j Hj. apply quoted_cond_true; [lia | by apply Hesc].
  - apply quoted_cond_false; [lia | done | done].
Qed.

(** A quoted string or word without a closing double quote: the scan
    reads beyond the terminating NUL of the input. *)
Lemma unterminated_quote_overruns token input walk p :
  capture_name token →
  walk ≤ strlen input → char_at input walk = dquote →
  (∀ j, walk < j ≤ strlen input → escaped_at input j) →
  try_token token input walk p = Abort OutOfBounds.
Proof.
  intros Hname Hwalk Hopen Hesc.
  rewrite try_token_capture by done. unfold scan_capture.
  rewrite peek_Ok by lia. rewrite Hopen. cbn.
  rewrite advance_while_overruns; [done|].
  intros j Hj. unfold room in Hj.
  apply quoted_cond_true; [lia | apply Hesc; lia].
Qed.

(** An empty quoted string or word is not handled, and leaves [walk]
    behind the opening double quote. *)
Lemma empty_quoted_capture_moves_walk token input walk p :
  capture_name token →
  S walk ≤ strlen input →
  char_at input walk = dquote → char_at input (S walk) = dquote →
  try_token token input walk p = Ok (false, S walk, p).
Proof.
  intros Hname Hwalk Hopen Hclose.
  rewrite try_token_capture by done. unfold scan_capture.
  rewrite peek_Ok by lia. rewrite Hopen. cbn.
  rewrite (advance_while_stops _ _ _ (S walk)).
  - cbn. by rewrite decide_False by lia.
  - lia.
  - unfold room. lia.
  - intros j Hj. lia.
  - apply quoted_cond_false; [lia | done |].
    replace (S walk - 1) with walk by lia. by rewrite Hopen.
Qed.

(** An unquoted string or word of length zero, with a delimiter of the
    token at [walk], is not handled, and leaves [walk] where it is. *)
Lemma empty_unquoted_capture_keeps_walk token input walk p :
  walk ≤ strlen input →
  (name token = "string" ∧ string_cond input walk = Ok false) ∨
  (name token = "word" ∧ word_cond input walk = Ok false) →
  try_token token input walk p = Ok (false, walk, p).
Proof.
  intros Hwalk Hdelim.
  assert (char_at input walk ≠ dquote) as Hq.
  { intros Hq. unfold string_cond, word_cond in Hdelim.
    rewrite !peek_Ok, Hq in Hdelim by lia.
    by destruct Hdelim as [[_ ?] | [_ ?]]. }
  rewrite try_token_capture
    by (destruct Hdelim as [[? _] | [? _]]; [by left | by right]).
  unfold scan_capture. rewrite peek_Ok by lia. cbn [mbind result_bind].
  destruct (Ascii.eqb_spec (char_at input walk) dquote) as [|_]; [done|].
  assert (room input walk = S (strlen input - walk)) as ->
    by (unfold room; lia).
  cbn [advance_while].
  destruct Hdelim as [[-> ->] | [-> ->]]; cbn; by rewrite decide_False by lia.
Qed.

End Captures.

Lemma quoted_capture_is_raw_slice_witness :
  try_token move_call (mk_token "word" (Some "direction") MOVE 0)
    escaped_input 5 (start empty_stack)
  = (p1 ← push (Some "direction") ("a\" +:+ String dquote "b")
               (start empty_stack);
     Ok (true, 11,
         next_state move_call (mk_token "word" (Some "direction") MOVE 0) p1)).
Proof.
  apply (quoted_capture_is_raw_slice move_call
           (mk_token "word" (Some "direction") MOVE 0) escaped_input 5 10
           (start empty_stack)).
  - right. reflexivity.
  - reflexivity.
  - vm_compute. lia.
  - intros j Hj. assert (j = 6 ∨ j = 7 ∨ j = 8 ∨ j = 9) as Hcases by lia.
    destruct Hcases as [-> | [-> | [-> | ->]]]; intros Hq;
      first [reflexivity | discriminate Hq].
  - reflexivity.
  - intros Hb. discriminate Hb.
Defined.

(** C2, as stated, fails: the word captured from [escaped_input] keeps
    the backslash. *)
Lemma quoted_capture_keeps_backslash :
  ∃ w p',
    try_token move_call (mk_token "word" (Some "direction") MOVE 0)
      escaped_input 5 (start empty_stack) = Ok (true, w, p') ∧
    get_string "direction" (stack p') = Some ("a\" +:+ String dquote "b") ∧
    get_string "direction" (stack p') ≠ Some ("a" +:+ String dquote "b").
Proof.
  eexists _, _. split; [vm_compute; reflexivity|].
  split; [reflexivity | intros H; discriminate H].
Qed.

(** C1, at [unterminated_input]: the scan for the closing double quote
    does not stop at the end of the input; the parser reads beyond the
    terminating NUL instead of reporting that no token matches. *)
Theorem unterminated_quote_is_scanned_beyond_input :
  ∀ fuel, parse_run move_call move_tokens (S (S fuel)) unterminated_input
            empty_stack = Abort OutOfBounds.
Proof. intros fuel. reflexivity. Qed.

(** C9, at [empty_quoted_input]: the string token fails on the empty
    quoted string
    and leaves [walk] at offset 1, so that the word token, tried next, is
    tried there and not at offset 0: it takes the second double quote for
    an opening one and captures [abc]. *)
Theorem failed_quoted_capture_consumes_quote :
  try_token move_call (mk_token "string" (Some "title") MOVE 0)
    empty_quoted_input 0 (start empty_stack)
  = Ok (false, 1, start empty_stack) ∧
  try_tokens move_call string_then_word empty_quoted_input 0
    (start empty_stack)
  = Ok (Some (mk_token "word" (Some "direction") MOVE 0), 6,
        {| state := MOVE;
           stack := <[0 := entry "direction" "abc"]> empty_stack;
           json_output := None; dispatched := [] |}).
Proof. split; reflexivity. Qed.

(** ** The main loop *)

Section Loop.
Variable GENERATED_call :
  nat → cmdp_state → list stack_entry → option string * cmdp_state.
Variable tokens : cmdp_state → list cmdp_token.

#[local] Abbreviation next_state := (next_state GENERATED_call).
#[local] Abbreviation try_token := (try_token GENERATED_call).
#[local] Abbreviation try_tokens := (try_tokens GENERATED_call).
#[local] Abbreviation parse_loop := (parse_loop GENERATED_call tokens).
#[local] Abbreviation parse_run := (parse_run GENERATED_call tokens).
#[local] Abbreviation parse_command := (parse_command GENERATED_call tokens).

(** One more iteration of the main loop. *)
Lemma parse_loop_S fuel input walk p :
  walk ≤ strlen input →
  parse_loop (S fuel) input walk p =
  (w1 ← skip_whitespace input walk;
   '(handled, w2, p') ← try_tokens (tokens (state p)) input w1 p;
   match handled with
   | Some _ => parse_loop fuel input w2 p'
   | None => Ok (p', error_lines (tokens (state p)) input w2)
   end).
Proof. intros Hwalk. cbn [parse_loop]. by rewrite decide_True. Qed.

Lemma parse_loop_end fuel input walk p :
  strlen input < walk → parse_loop (S fuel) input walk p = Ok (p, []).
Proof.
  intros Hwalk. cbn [parse_loop]. rewrite decide_False; [done | lia].
Qed.

Lemma next_state_output_is_last token p :
  output_is_last p → output_is_last (next_state token p).
Proof.
  unfold output_is_last, next_state. intros Hp.
  case_decide; [|done]. destruct (GENERATED_call _ _ _) as [output st].
  cbn. by rewrite last_snoc.
Qed.

Lemma pushed_onto_output_is_last p p1 :
  pushed_onto p p1 → output_is_last p → output_is_last p1.
Proof. unfold output_is_last. intros (_ & -> & -> & _). done. Qed.

Lemma parse_loop_output_is_last fuel input walk p p' out :
  parse_loop fuel input walk p = Ok (p', out) →
  output_is_last p → output_is_last p'.
Proof.
  revert walk p. induction fuel as [|fuel IH]; intros walk p H Hp; [done|].
  cbn [parse_loop] in H. case_decide; [|by inv_result].
  apply bind_Ok in H as (w1 & _ & H).
  apply bind_Ok in H as ([[[token|] w2] p2] & Htry & H).
  - apply try_tokens_handled in Htry as (_ & p1 & Hp1 & ->).
    eapply IH; [done|].
    by eapply next_state_output_is_last, pushed_onto_output_is_last.
  - apply try_tokens_unhandled in Htry as ->. by inv_result.
Qed.

(** X18. [parse_command] returns the output of the last call that was
    made during the parse, whether or not the parse ended in an error,
    and NULL when no call was made. *)
Lemma parse_command_last_dispatched fuel input stack0 p out :
  parse_run fuel input stack0 = Ok (p, out) →
  parse_command fuel input stack0 = Ok (default None (last (dispatched p))).
Proof.
  intros H. unfold parse_command. rewrite H. cbn.
  f_equal. by eapply parse_loop_output_is_last.
Qed.


End Loop.



(** ** Strings that are put together *)

Lemma strlen_app s1 s2 : strlen (s1 +:+ s2) = strlen s1 + strlen s2.
Proof.
  unfold strlen. induction s1 as [|c s1 IH]; [done|].
  simpl. f_equal. exact IH.
Qed.

Lemma char_at_app_l s1 s2 i :
  i < strlen s1 → char_at (s1 +:+ s2) i = char_at s1 i.
Proof.
  unfold strlen, char_at. revert i.
  induction s1 as [|c s1 IH]; intros i Hi; cbn in *; [lia|].
  destruct i as [|i]; [done|]. apply IH. lia.
Qed.

Lemma char_at_app_r s1 s2 i :
  char_at (s1 +:+ s2) (strlen s1 + i) = char_at s2 i.
Proof.
  unfold strlen, char_at. induction s1 as [|c s1 IH]; [done|]. apply IH.
Qed.

Lemma char_at_strlen s : char_at s (strlen s) = NUL.
Proof.
  unfold strlen, char_at. induction s as [|c s IH]; [done|]. apply IH.
Qed.

Lemma substring_app_l s1 s2 b n :
  b + n ≤ strlen s1 →
  String.substring b n (s1 +:+ s2) = String.substring b n s1.
Proof.
  unfold strlen. revert b n.
  induction s1 as [|c s1 IH]; intros b n Hbn; cbn in *.
  - assert (b = 0) as -> by lia. assert (n = 0) as -> by lia.
    by destruct s2.
  - destruct b as [|b].
    + destruct n as [|n]; [done|]. simpl. f_equal. apply (IH 0 n). lia.
    + simpl. apply IH. lia.
Qed.

Lemma substring_app_r s1 s2 b n :
  String.substring (strlen s1 + b) n (s1 +:+ s2) = String.substring b n s2.
Proof. unfold strlen. induction s1 as [|c s1 IH]; [done|]. apply IH. Qed.

(** ** The parser on the rest of an input

    Reading [s2] at the offset [i] is reading [pre +:+ s2] at the offset
    [strlen pre + i]; the parser does on the second what it does on the
    first, with [walk] moved by [strlen pre]. *)

Section Shift.
Variable GENERATED_call :
  nat → cmdp_state → list stack_entry → option string * cmdp_state.
Variable tokens : cmdp_state → list cmdp_token.
Variables pre s2 : string.

#[local] Abbreviation b := (pre +:+ s2).
#[local] Abbreviation o := (strlen pre).
#[local] Abbreviation try_token := (try_token GENERATED_call).
#[local] Abbreviation try_tokens := (try_tokens GENERATED_call).
#[local] Abbreviation parse_loop := (parse_loop GENERATED_call tokens).

Lemma peek_shift i : peek b (o + i) = peek s2 i.
Proof.
  unfold peek. rewrite strlen_app, char_at_app_r.
  destruct (decide (i ≤ strlen s2)).
  - rewrite decide_True; [done | lia].
  - rewrite decide_False; [done | lia].
Qed.

Lemma room_shift w : room b (o + w) = room s2 w.
Proof. unfold room. rewrite strlen_app. lia. Qed.

Lemma blank_cond_shift j : blank_cond b (o + j) = blank_cond s2 j.
Proof. unfold blank_cond. by rewrite peek_shift. Qed.

Lemma string_cond_shift j : string_cond b (o + j) = string_cond s2 j.
Proof. unfold string_cond. by rewrite peek_shift. Qed.

Lemma word_cond_shift j : word_cond b (o + j) = word_cond s2 j.
Proof. unfold word_cond. by rewrite peek_shift. Qed.

Lemma quoted_cond_shift j :
  1 ≤ j → quoted_cond b (o + j) = quoted_cond s2 j.
Proof.
  intros Hj. unfold quoted_cond. rewrite peek_shift.
  replace (o + j - 1) with (o + (j - 1)) by lia. by rewrite peek_shift.
Qed.

Lemma advance_while_shift c1 c2 n w :
  (∀ j, w ≤ j → c2 (o + j) = c1 j) →
  advance_while c2 n (o + w) = Nat.add o <$> advance_while c1 n w.
Proof.
  revert w. induction n as [|n IH]; intros w Hc; [done|].
  cbn [advance_while]. rewrite Hc by lia.
  destruct (c1 w) as [[]|]; cbn; [|done|done].
  replace (S (o + w)) with (o + S w) by lia.
  apply IH. intros j Hj. apply Hc. lia.
Qed.

Lemma skip_whitespace_shift w :
  skip_whitespace b (o + w) = Nat.add o <$> skip_whitespace s2 w.
Proof.
  unfold skip_whitespace. rewrite room_shift.
  apply advance_while_shift. intros j _. apply blank_cond_shift.
Qed.

Lemma strncasecmp_shift w lit n :
  strncasecmp b (o + w) lit n = strncasecmp s2 w lit n.
Proof.
  revert w lit. induction n as [|n IH]; intros w lit; [done|].
  cbn [strncasecmp]. rewrite peek_shift.
  destruct (peek s2 w) as [c1|]; cbn; [|done].
  destruct (negb _); [done|]. destruct (c1 =? NUL)%char; [done|].
  replace (S (o + w)) with (o + S w) by lia. apply IH.
Qed.

Lemma scan_capture_shift token w :
  scan_capture token b (o + w)
  = (fun r => (o + r.1, o + r.2)) <$> scan_capture token s2 w.
Proof.
  unfold scan_capture. rewrite peek_shift.
  destruct (peek s2 w) as [c|]; cbn; [|done].
  destruct (c =? dquote)%char.
  - replace (S (o + w)) with (o + S w) by lia. rewrite room_shift.
    rewrite (advance_while_shift (quoted_cond s2)).
    + by destruct (advance_while _ _ _).
    + intros j Hj. apply quoted_cond_shift. lia.
  - destruct (char_at (name token) 0 =? "s")%char; rewrite room_shift.
    + rewrite (advance_while_shift (string_cond s2)).
      * by destruct (advance_while _ _ _).
      * intros j _. apply string_cond_shift.
    + rewrite (advance_while_shift (word_cond s2)).
      * by destruct (advance_while _ _ _).
      * intros j _. apply word_cond_shift.
Qed.

Lemma try_token_shift token w p :
  try_token token b (o + w) p = moved o <$> try_token token s2 w p.
Proof.
  unfold try_token. rewrite strncasecmp_shift.
  destruct (char_at (name token) 0 =? squote)%char.
  - destruct (strncasecmp _ _ _ _) as [[]|]; cbn; [|done|done].
    destruct (push _ _ _); cbn; [|done]. unfold moved. cbn.
    do 2 f_equal. f_equal. lia.
  - destruct (String.eqb _ "string" || String.eqb _ "word").
    + rewrite scan_capture_shift.
      destruct (scan_capture token s2 w) as [[beg e]|]; cbn; [|done].
      replace (o + e - (o + beg)) with (e - beg) by lia.
      rewrite substring_app_r, peek_shift.
      destruct (decide (e ≠ beg)).
      * rewrite decide_True by lia.
        destruct (push _ _ _); cbn; [|done].
        destruct (peek s2 e) as [c|]; cbn; [|done].
        unfold moved. cbn. destruct (c =? dquote)%char; do 3 f_equal; lia.
      * rewrite decide_False by lia. cbn.
        destruct (String.eqb _ "end"); [|done].
        rewrite peek_shift.
        destruct (peek s2 e) as [c|]; cbn; [|done].
        unfold moved.
        destruct ((c =? NUL) || (c =? ",") || (c =? ";"))%char; cbn;
          do 3 f_equal; lia.
    + cbn. destruct (String.eqb _ "end"); [|done].
      rewrite peek_shift.
      destruct (peek s2 w) as [c|]; cbn; [|done].
      unfold moved.
      destruct ((c =? NUL) || (c =? ",") || (c =? ";"))%char; cbn;
        do 3 f_equal; lia.
Qed.

Lemma try_tokens_shift toks w p :
  try_tokens toks b (o + w) p = moved o <$> try_tokens toks s2 w p.
Proof.
  revert w p. induction toks as [|t toks IH]; intros w p; [done|].
  cbn [try_tokens]. rewrite try_token_shift.
  destruct (try_token t s2 w p) as [[[[] w1] p1]|]; cbn; [done| |done].
  apply IH.
Qed.

Lemma parse_loop_shift fuel w p :
  (fun r => (r.1, length r.2)) <$> parse_loop fuel b (o + w) p
  = (fun r => (r.1, length r.2)) <$> parse_loop fuel s2 w p.
Proof.
  revert w p. induction fuel as [|fuel IH]; intros w p; [done|].
  cbn [parse_loop]. rewrite strlen_app.
  destruct (decide (w ≤ strlen s2)).
  - rewrite decide_True by lia. rewrite skip_whitespace_shift.
    destruct (skip_whitespace s2 w) as [w1|]; cbn; [|done].
    rewrite try_tokens_shift.
    destruct (try_tokens _ s2 w1 p) as [[[[t|] w2] p2]|]; cbn; [|done|done].
    apply IH.
  - rewrite decide_False by lia. done.
Qed.

End Shift.

(** ** The history of calls does not steer the parser *)

Section Rebase.
Variable GENERATED_call :
  nat → cmdp_state → list stack_entry → option string * cmdp_state.
Variable tokens : cmdp_state → list cmdp_token.
Variable d : list (option string).
Variable j : option string.

#[local] Abbreviation next_state := (next_state GENERATED_call).
#[local] Abbreviation try_token := (try_token GENERATED_call).
#[local] Abbreviation try_tokens := (try_tokens GENERATED_call).
#[local] Abbreviation parse_loop := (parse_loop GENERATED_call tokens).

Lemma next_state_rebase token p :
  next_state token (rebase d j p) = rebase d j (next_state token p).
Proof.
  unfold next_state, rebase. cbn.
  case_decide; [|done].
  destruct (GENERATED_call _ _ _) as [output st]. cbn.
  f_equal; [|by rewrite app_assoc]. by destruct (dispatched p).
Qed.

Lemma push_rebase id s p :
  push id s (rebase d j p) = rebase d j <$> push id s p.
Proof.
  destruct id as [id|]; [|done]. unfold push, rebase. cbn [stack].
  by destruct (push_string id s (stack p)).
Qed.

Lemma try_token_rebase token input w p :
  try_token token input w (rebase d j p)
  = (fun r => (r.1, rebase d j r.2)) <$> try_token token input w p.
Proof.
  unfold try_token.
  destruct (char_at (name token) 0 =? squote)%char.
  - destruct (strncasecmp _ _ _ _) as [[]|]; cbn; [|done|done].
    rewrite push_rebase. destruct (push _ _ p); cbn; [|done].
    by rewrite next_state_rebase.
  - destruct (String.eqb _ "string" || String.eqb _ "word").
    + destruct (scan_capture token input w) as [[beg e]|]; cbn; [|done].
      case_decide.
      * rewrite push_rebase. destruct (push _ _ p); cbn; [|done].
        destruct (peek input e) as [c|]; cbn; [|done].
        by rewrite next_state_rebase.
      * cbn. destruct (String.eqb _ "end"); [|done].
        destruct (peek input e) as [c|]; cbn; [|done].
        destruct ((c =? NUL) || (c =? ",") || (c =? ";"))%char; cbn; [|done].
        by rewrite next_state_rebase.
    + cbn. destruct (String.eqb _ "end"); [|done].
      destruct (peek input w) as [c|]; cbn; [|done].
      destruct ((c =? NUL) || (c =? ",") || (c =? ";"))%char; cbn; [|done].
      by rewrite next_state_rebase.
Qed.

Lemma try_tokens_rebase toks input w p :
  try_tokens toks input w (rebase d j p)
  = (fun r => (r.1, rebase d j r.2)) <$> try_tokens toks input w p.
Proof.
  revert w p. induction toks as [|t toks IH]; intros w p; [done|].
  cbn [try_tokens]. rewrite try_token_rebase.
  destruct (try_token t input w p) as [[[[] w1] p1]|]; cbn; [done| |done].
  apply IH.
Qed.

Lemma parse_loop_rebase fuel input w p :
  parse_loop fuel input w (rebase d j p)
  = (fun r => (rebase d j r.1, r.2)) <$> parse_loop fuel input w p.
Proof.
  revert w p. induction fuel as [|fuel IH]; intros w p; [done|].
  cbn [parse_loop]. case_decide; [|done].
  destruct (skip_whitespace input w) as [w1|]; cbn; [|done].
  rewrite try_tokens_rebase.
  destruct (try_tokens _ input w1 p) as [[[[t|] w2] p2]|]; cbn; [|done|done].
  apply IH.
Qed.

End Rebase.

(** ** More fuel, and the stack between commands *)

Lemma push_string_from_insert n c id s (stk stk' : list stack_entry) :
  push_string_from n c id s stk = Ok stk' →
  ∃ c', stk' = <[c' := entry id s]> stk.
Proof.
  revert c. induction n as [|n IH]; intros c H; [done|].
  cbn [push_string_from] in H.
  destruct (identifier (slot stk c)); [by eapply IH|].
  inv_result. by exists c.
Qed.

Lemma pushed_onto_length p p1 :
  pushed_onto p p1 → length (stack p1) = length (stack p).
Proof.
  intros (_ & _ & _ & [-> | (id & s & H)]); [done|].
  apply push_string_from_insert in H as [c ->]. apply length_insert.
Qed.

Section Fuel.
Variable GENERATED_call :
  nat → cmdp_state → list stack_entry → option string * cmdp_state.
Variable tokens : cmdp_state → list cmdp_token.

#[local] Abbreviation next_state := (next_state GENERATED_call).
#[local] Abbreviation try_tokens := (try_tokens GENERATED_call).
#[local] Abbreviation parse_loop := (parse_loop GENERATED_call tokens).

Lemma parse_loop_more_fuel fuel k input w p r :
  parse_loop fuel input w p = Ok r → parse_loop (fuel + k) input w p = Ok r.
Proof.
  revert w p. induction fuel as [|fuel IH]; intros w p H; [done|].
  cbn [parse_loop Nat.add] in *. case_decide; [|done].
  destruct (skip_whitespace input w) as [w1|]; cbn in *; [|done].
  destruct (try_tokens _ input w1 p) as [[[[t|] w2] p2]|]; cbn in *;
    [by apply IH | done | done].
Qed.

Lemma next_state_clean token p :
  length (stack p) = 10 → clean (next_state token p).
Proof.
  intros Hlen. unfold clean, next_state. case_decide.
  - destruct (GENERATED_call _ _ _) as [output st]. cbn.
    by rewrite clear_stack_10.
  - cbn. case_decide as Hinit.
    + by rewrite clear_stack_10.
    + split; [done|]. by intros ?.
Qed.

Lemma try_tokens_clean toks token input w p w' p' :
  try_tokens toks input w p = Ok (Some token, w', p') →
  length (stack p) = 10 → clean p'.
Proof.
  intros (_ & p1 & Hp1 & ->)%try_tokens_handled Hlen.
  apply next_state_clean. by rewrite (pushed_onto_length p p1).
Qed.

Lemma parse_loop_keeps_clean fuel input w p p' out :
  parse_loop fuel input w p = Ok (p', out) → clean p → clean p'.
Proof.
  revert w p. induction fuel as [|fuel IH]; intros w p H Hp; [done|].
  cbn [parse_loop] in H. case_decide; [|by inv_result].
  apply bind_Ok in H as (w1 & _ & H).
  apply bind_Ok in H as ([[[token|] w2] p2] & Htry & H).
  - eapply IH; [done|]. eapply try_tokens_clean; [done|]. apply Hp.
  - apply try_tokens_unhandled in Htry as ->. by inv_result.
Qed.

Lemma error_lines_not_nil toks input w : error_lines toks input w ≠ [].
Proof. done. Qed.

Lemma parse_loop_clean fuel input w p p' :
  parse_loop fuel input w p = Ok (p', []) →
  w ≤ strlen input → length (stack p) = 10 → clean p'.
Proof.
  destruct fuel as [|fuel]; [done|]. intros H Hw Hlen.
  rewrite parse_loop_S in H by done.
  apply bind_Ok in H as (w1 & _ & H).
  apply bind_Ok in H as ([[[token|] w2] p2] & Htry & H).
  - eapply parse_loop_keeps_clean; [done|]. by eapply try_tokens_clean.
  - by inv_result.
Qed.

End Fuel.

(** ** The parser before a semicolon

    A command [s1] that is followed by a semicolon is parsed as [s1] alone
    is, up to the end token that takes the semicolon for the end of the
    command. *)

Lemma tolower_eq_NUL c : (NUL =? tolower c)%char = (NUL =? c)%char.
Proof. by destruct c as [[] [] [] [] [] [] [] []]. Qed.

Lemma tolower_eq_semicolon c : (";" =? tolower c)%char = (";" =? c)%char.
Proof. by destruct c as [[] [] [] [] [] [] [] []]. Qed.

Lemma advance_while_agree c1 c2 r1 r2 w e :
  advance_while c1 r1 w = Ok e →
  (∀ j, w ≤ j ≤ e → c2 j = c1 j) → e - w < r2 →
  advance_while c2 r2 w = Ok e.
Proof.
  intros (Hle & Hfalse & Htrue)%advance_while_Ok Hagree Hroom.
  apply advance_while_stops; [lia | done | |].
  - intros j Hj. rewrite Hagree by lia. apply Htrue. lia.
  - rewrite Hagree by lia. done.
Qed.

Section Prefix.
Variable GENERATED_call :
  nat → cmdp_state → list stack_entry → option string * cmdp_state.
Variable tokens : cmdp_state → list cmdp_token.
Variables s1 t : string.

#[local] Abbreviation b := (s1 +:+ String ";" t).
#[local] Abbreviation len1 := (strlen s1).
#[local] Abbreviation next_state := (next_state GENERATED_call).
#[local] Abbreviation try_token := (try_token GENERATED_call).
#[local] Abbreviation try_tokens := (try_tokens GENERATED_call).
#[local] Abbreviation parse_loop := (parse_loop GENERATED_call tokens).

Lemma strlen_prefix : strlen b = S (len1 + strlen t).
Proof. rewrite strlen_app. unfold strlen. cbn. lia. Qed.

Lemma char_at_prefix i : i < len1 → char_at b i = char_at s1 i.
Proof. apply char_at_app_l. Qed.

Lemma char_at_semicolon : char_at b len1 = ";"%char.
Proof.
  replace len1 with (len1 + 0) by lia. by rewrite char_at_app_r.
Qed.

Lemma peek_prefix i : i < len1 → peek b i = peek s1 i.
Proof.
  intros Hi. rewrite !peek_Ok by (rewrite ?strlen_prefix; lia).
  by rewrite char_at_prefix.
Qed.

Lemma peek_semicolon : peek b len1 = Ok ";"%char.
Proof.
  rewrite peek_Ok by (rewrite strlen_prefix; lia). by rewrite char_at_semicolon.
Qed.

Lemma peek_NUL : peek s1 len1 = Ok NUL.
Proof. rewrite peek_Ok by done. by rewrite char_at_strlen. Qed.

Lemma blank_cond_prefix i : i ≤ len1 → blank_cond b i = blank_cond s1 i.
Proof.
  intros Hi. unfold blank_cond. destruct (decide (i < len1)).
  - by rewrite peek_prefix.
  - assert (i = len1) as -> by lia. by rewrite peek_semicolon, peek_NUL.
Qed.

Lemma string_cond_prefix i : i ≤ len1 → string_cond b i = string_cond s1 i.
Proof.
  intros Hi. unfold string_cond. destruct (decide (i < len1)).
  - by rewrite peek_prefix.
  - assert (i = len1) as -> by lia. by rewrite peek_semicolon, peek_NUL.
Qed.

Lemma word_cond_prefix i : i ≤ len1 → word_cond b i = word_cond s1 i.
Proof.
  intros Hi. unfold word_cond. destruct (decide (i < len1)).
  - by rewrite peek_prefix.
  - assert (i = len1) as -> by lia. by rewrite peek_semicolon, peek_NUL.
Qed.

Lemma quoted_cond_prefix i : i < len1 → quoted_cond b i = quoted_cond s1 i.
Proof.
  intros Hi. unfold quoted_cond.
  rewrite (peek_prefix i) by done. by rewrite (peek_prefix (i - 1)) by lia.
Qed.

Lemma quoted_cond_NUL : quoted_cond s1 len1 = Ok true.
Proof. unfold quoted_cond. by rewrite (peek_NUL). Qed.

Lemma is_dquote_prefix i :
  i ≤ len1 →
  (c ← peek b i; Ok (c =? dquote)%char) = (c ← peek s1 i; Ok (c =? dquote)%char).
Proof.
  intros Hi. destruct (decide (i < len1)).
  - by rewrite peek_prefix.
  - assert (i = len1) as -> by lia. by rewrite peek_semicolon, peek_NUL.
Qed.

Lemma skip_whitespace_prefix w e :
  w ≤ len1 → skip_whitespace s1 w = Ok e →
  e ≤ len1 ∧ skip_whitespace b w = Ok e.
Proof.
  unfold skip_whitespace, room. intros Hw H.
  pose proof (advance_while_Ok _ _ _ _ H) as (He & _ & _).
  split; [lia|].
  eapply advance_while_agree; [done | | rewrite strlen_prefix; lia].
  intros j Hj. apply blank_cond_prefix. lia.
Qed.

Lemma strncasecmp_prefix n w lit m :
  plain lit = true → n ≤ strlen lit → w ≤ len1 →
  strncasecmp s1 w lit n = Ok m →
  strncasecmp b w lit n = Ok m ∧ (m = true → w + n ≤ len1).
Proof.
  revert w lit. induction n as [|n IH]; intros w lit Hplain Hn Hw H.
  - cbn in H. inv_result. split; [done | lia].
  - destruct lit as [|c2 lit]; [unfold strlen in Hn; cbn in Hn; lia|].
    cbn [plain] in Hplain.
    apply andb_true_iff in Hplain as [[Hnul Hsemi]%andb_true_iff Hplain].
    apply negb_true_iff in Hnul, Hsemi.
    rewrite Ascii.eqb_sym in Hnul. rewrite Ascii.eqb_sym in Hsemi.
    cbn [strncasecmp] in *.
    change (char_at (String c2 lit) 0) with c2 in *.
    change (tail (String c2 lit)) with lit in *.
    destruct (decide (w < len1)) as [Hlt|Hge].
    + rewrite peek_prefix by done. rewrite peek_Ok in * by lia.
      cbn [mbind result_bind] in *.
      destruct (negb (tolower (char_at s1 w) =? tolower c2)%char) eqn:Hcmp.
      { inv_result. split; [done | by intros ?]. }
      destruct (char_at s1 w =? NUL)%char eqn:Hz.
      { exfalso. apply Ascii.eqb_eq in Hz. rewrite Hz in Hcmp.
        change (tolower NUL) with NUL in Hcmp.
        rewrite tolower_eq_NUL, Hnul in Hcmp. done. }
      apply IH in H as [H1 H2]; [| done | unfold strlen in *; cbn in Hn; lia | lia].
      split; [done|]. intros Hm. specialize (H2 Hm). lia.
    + assert (w = len1) as -> by lia.
      rewrite peek_semicolon. rewrite peek_NUL in H.
      cbn [mbind result_bind] in *.
      change (tolower NUL) with NUL in H. change (tolower ";") with ";"%char.
      rewrite tolower_eq_NUL, Hnul in H. rewrite tolower_eq_semicolon, Hsemi.
      cbn in *. inv_result. split; [done | by intros ?].
Qed.

Lemma scan_capture_prefix token w beg e :
  w ≤ len1 → scan_capture token s1 w = Ok (beg, e) →
  scan_capture token b w = Ok (beg, e) ∧ w ≤ beg ≤ e ∧ e ≤ len1.
Proof.
  unfold scan_capture. intros Hw H.
  apply bind_Ok in H as (c & Hc & H).
  destruct (c =? dquote)%char eqn:Hq.
  - assert (w < len1) as Hlt.
    { destruct (decide (w = len1)) as [->|]; [|lia].
      rewrite peek_NUL in Hc. by inv_result. }
    rewrite peek_prefix, Hc by done. cbn [mbind result_bind]. rewrite Hq.
    apply bind_Ok in H as (e' & Hscan & H). inv_result.
    pose proof (advance_while_Ok _ _ _ _ Hscan) as (Hle & Hfalse & _).
    unfold room in Hle.
    assert (e < len1) as He.
    { destruct (decide (e = len1)) as [->|]; [|lia].
      rewrite quoted_cond_NUL in Hfalse. done. }
    rewrite (advance_while_agree _ (quoted_cond b) _ (room b (S w)) _ _ Hscan).
    + split; [done | lia].
    + intros j Hj. apply quoted_cond_prefix. lia.
    + unfold room. rewrite strlen_prefix. lia.
  - assert ((c0 ← peek b w; Ok (c0 =? dquote)%char) = Ok false) as Hc'.
    { rewrite is_dquote_prefix by done. rewrite Hc. cbn. by rewrite Hq. }
    apply bind_Ok in Hc' as (c' & -> & Hq'). injection Hq' as Hq'.
    cbn [mbind result_bind]. rewrite Hq'.
    destruct (char_at (name token) 0 =? "s")%char.
    + apply bind_Ok in H as (e' & Hscan & H). inv_result.
      pose proof (advance_while_Ok _ _ _ _ Hscan) as (Hle & _ & _).
      unfold room in Hle.
      rewrite (advance_while_agree _ (string_cond b) _ (room b beg) _ _ Hscan).
      * split; [done | lia].
      * intros j Hj. apply string_cond_prefix. lia.
      * unfold room. rewrite strlen_prefix. lia.
    + apply bind_Ok in H as (e' & Hscan & H). inv_result.
      pose proof (advance_while_Ok _ _ _ _ Hscan) as (Hle & _ & _).
      unfold room in Hle.
      rewrite (advance_while_agree _ (word_cond b) _ (room b beg) _ _ Hscan).
      * split; [done | lia].
      * intros j Hj. apply word_cond_prefix. lia.
      * unfold room. rewrite strlen_prefix. lia.
Qed.

Lemma plain_tail s : plain s = true → plain (tail s) = true.
Proof.
  destruct s as [|c s]; [done|]. cbn [plain tail].
  by intros [_ ?]%andb_true_iff.
Qed.

Lemma strlen_tail s : strlen (tail s) = strlen s - 1.
Proof. destruct s as [|c s]; [done|]. unfold strlen. cbn. lia. Qed.

Lemma capture_not_end s :
  String.eqb s "string" || String.eqb s "word" = true →
  String.eqb s "end" = false.
Proof.
  intros [Hs | Hs]%orb_true_iff; apply String.eqb_eq in Hs; by subst s.
Qed.

Lemma try_token_prefix token w p h w' p' :
  plain (name token) = true → w ≤ len1 →
  try_token token s1 w p = Ok (h, w', p') →
  try_token token b w p = Ok (h, w', p') ∧
  (w' ≤ len1 ∨ (h = true ∧ w' = S len1)).
Proof.
  unfold try_token. intros Hplain Hw H.
  destruct (char_at (name token) 0 =? squote)%char.
  - apply bind_Ok in H as (m & Hcmp & H).
    apply strncasecmp_prefix in Hcmp as [Hcmp Hbound];
      [| by apply plain_tail | by rewrite strlen_tail | done].
    rewrite Hcmp. cbn [mbind result_bind]. destruct m.
    + apply bind_Ok in H as (p1 & Hpush & H). rewrite Hpush.
      cbn [mbind result_bind]. inv_result. split; [done|]. left. by apply Hbound.
    + inv_result. split; [done | by left].
  - destruct (String.eqb _ "string" || String.eqb _ "word") eqn:Hcap.
    + rewrite (capture_not_end _ Hcap) in *.
      apply bind_Ok in H as ([[h0 w0] p0] & Hblock & H).
      apply bind_Ok in Hblock as ([beg e] & Hscan & Hblock).
      apply scan_capture_prefix in Hscan as (Hscan & Hbeg & He); [|done].
      rewrite Hscan. cbn [mbind result_bind].
      rewrite substring_app_l by lia.
      case_decide.
      * apply bind_Ok in Hblock as (p1 & Hpush & Hblock). rewrite Hpush.
        cbn [mbind result_bind].
        apply bind_Ok in Hblock as (c & Hc & Hblock).
        destruct (decide (e < len1)).
        -- rewrite peek_prefix, Hc by done. cbn [mbind result_bind].
           inv_result. split; [done|]. left. destruct (c =? dquote)%char; lia.
        -- assert (e = len1) as -> by lia.
           rewrite peek_semicolon. rewrite peek_NUL in Hc.
           cbn [mbind result_bind]. inv_result. cbn. split; [done | by left].
      * inv_result. cbn. split; [done | by left].
    + cbn [mbind result_bind] in *. destruct (String.eqb _ "end").
      * apply bind_Ok in H as (c & Hc & H).
        destruct (decide (w < len1)).
        -- rewrite peek_prefix, Hc by done. cbn [mbind result_bind].
           destruct ((c =? NUL) || (c =? ",") || (c =? ";"))%char;
             inv_result; (split; [done | left; lia]).
        -- assert (w = len1) as -> by lia.
           rewrite peek_semicolon. rewrite peek_NUL in Hc.
           cbn [mbind result_bind]. inv_result. cbn in *. inv_result.
           split; [done | by right].
      * inv_result. split; [done | by left].
Qed.

Lemma try_tokens_prefix toks w p h w' p' :
  (∀ token, token ∈ toks → plain (name token) = true) → w ≤ len1 →
  try_tokens toks s1 w p = Ok (h, w', p') →
  try_tokens toks b w p = Ok (h, w', p') ∧
  (w' ≤ len1 ∨ (is_Some h ∧ w' = S len1)).
Proof.
  revert w p. induction toks as [|token toks IH]; intros w p Hplain Hw H.
  - cbn in *. inv_result. split; [done | by left].
  - cbn [try_tokens] in *.
    apply bind_Ok in H as ([[h0 w0] p0] & Htry & H).
    apply try_token_prefix in Htry as [Htry Hw0];
      [| apply Hplain; by left | done].
    rewrite Htry. cbn [mbind result_bind]. destruct h0.
    + inv_result. split; [done|].
      destruct Hw0 as [? | [_ ?]]; [by left | by right].
    + destruct Hw0 as [Hw0 | [? _]]; [|done].
      apply IH; [| done | done]. intros token' Hin. apply Hplain. by right.
Qed.

Lemma parse_loop_prefix fuel w p p' :
  plain_names tokens → w ≤ len1 →
  parse_loop fuel s1 w p = Ok (p', []) →
  ∃ n, n ≤ fuel ∧
    ∀ k, parse_loop (n + k) b w p = parse_loop k b (S len1) p'.
Proof.
  intros Hplain. revert w p.
  induction fuel as [|fuel IH]; intros w p Hw H; [done|].
  rewrite parse_loop_S in H by done.
  apply bind_Ok in H as (w1 & Hskip & H).
  apply bind_Ok in H as ([[[token|] w2] p2] & Htry & H); [|by inv_result].
  apply skip_whitespace_prefix in Hskip as [Hw1 Hskip]; [|done].
  apply try_tokens_prefix in Htry as [Htry Hw2];
    [| intros token' Hin; by eapply Hplain | done].
  destruct Hw2 as [Hw2 | [_ ->]].
  - apply IH in H as (n & Hn & Hloop); [|done].
    exists (S n). split; [lia|]. intros k. cbn [Nat.add].
    rewrite parse_loop_S by (rewrite strlen_prefix; lia).
    rewrite Hskip. cbn [mbind result_bind]. rewrite Htry.
    cbn [mbind result_bind]. apply Hloop.
  - destruct fuel as [|fuel]; [done|].
    rewrite parse_loop_end in H by lia. inv_result.
    exists 1. split; [lia|]. intros k. cbn [Nat.add].
    rewrite parse_loop_S by (rewrite strlen_prefix; lia).
    rewrite Hskip. cbn [mbind result_bind]. rewrite Htry. done.
Qed.

End Prefix.

(** ** Two commands in one input *)

Lemma append_assoc s1 s2 s3 : (s1 +:+ s2) +:+ s3 = s1 +:+ (s2 +:+ s3).
Proof.
  induction s1 as [|c s1 IH]; [done|].
  change (String c ((s1 +:+ s2) +:+ s3) = String c (s1 +:+ (s2 +:+ s3))).
  by rewrite IH.
Qed.

Section TwoCommands.
Variable GENERATED_call :
  nat → cmdp_state → list stack_entry → option string * cmdp_state.
Variable tokens : cmdp_state → list cmdp_token.

#[local] Abbreviation parse_loop := (parse_loop GENERATED_call tokens).
#[local] Abbreviation parse_run := (parse_run GENERATED_call tokens).

(** A blank at [walk] is skipped before the next token. *)
Lemma parse_loop_blank fuel input w p :
  w < strlen input → char_at input w = " "%char →
  parse_loop fuel input w p = parse_loop fuel input (S w) p.
Proof.
  intros Hw Hblank. destruct fuel as [|fuel]; [done|].
  rewrite !parse_loop_S by lia.
  assert (skip_whitespace input w = skip_whitespace input (S w)) as ->; [|done].
  unfold skip_whitespace.
  replace (room input w) with (S (room input (S w))) by (unfold room; lia).
  cbn [advance_while].
  assert (blank_cond input w = Ok true) as ->; [|done].
  unfold blank_cond. rewrite peek_Ok by lia. by rewrite Hblank.
Qed.

(** C4 (amended). Let no name of a token hold a semicolon, and let the
    parse of [cmd1] alone, on an empty stack, end without an error
    message and in the state INITIAL.  Then the parse of [cmd1; cmd2]
    makes the calls of the parse of [cmd1] followed by the calls of the
    parse of [cmd2] alone on an empty stack, with the same outputs in the
    same order, and it ends as the parse of [cmd2] does. *)
Theorem two_commands_like_separate_calls fuel1 fuel2 cmd1 cmd2 p1 p2 out2 :
  plain_names tokens →
  parse_run fuel1 cmd1 empty_stack = Ok (p1, []) →
  state p1 = INITIAL →
  parse_run fuel2 cmd2 empty_stack = Ok (p2, out2) →
  ∃ p out,
    parse_run (fuel1 + fuel2) (two_commands cmd1 cmd2) empty_stack
    = Ok (p, out) ∧
    dispatched p = dispatched p1 ++ dispatched p2 ∧
    state p = state p2 ∧ stack p = stack p2 ∧
    (out = [] ↔ out2 = []).
Proof.
  unfold parse_run. intros Hplain H1 Hinit H2.
  set (p0 := {| state := INITIAL; stack := empty_stack;
                json_output := None; dispatched := [] |}) in *.
  pose proof (parse_loop_clean _ _ _ _ _ _ _ H1 (Nat.le_0_l _) eq_refl)
    as [_ Hstack].
  specialize (Hstack Hinit).
  assert (p1 = rebase (dispatched p1) (json_output p1) p0) as Hp1.
  { destruct p1 as [st1 stk1 j1 d1]. cbn in *. subst st1 stk1.
    unfold rebase. cbn. by rewrite app_nil_r. }
  destruct (parse_loop_prefix GENERATED_call tokens cmd1 (String " " cmd2)
              fuel1 0 p0 p1 Hplain (Nat.le_0_l _) H1) as (n & Hn & Hloop).
  fold (two_commands cmd1 cmd2) in Hloop.
  replace (fuel1 + fuel2) with (n + (fuel2 + (fuel1 - n))) by lia.
  rewrite Hloop.
  assert (strlen (two_commands cmd1 cmd2) = strlen cmd1 + 2 + strlen cmd2)
    as Hlen.
  { unfold two_commands. rewrite strlen_app. unfold strlen. cbn. lia. }
  rewrite parse_loop_blank; cycle 1.
  { lia. }
  { unfold two_commands. replace (S (strlen cmd1)) with (strlen cmd1 + 1) by lia.
    by rewrite char_at_app_r. }
  assert (two_commands cmd1 cmd2 = (cmd1 +:+ "; ") +:+ cmd2) as ->
    by (unfold two_commands; by rewrite append_assoc).
  replace (S (S (strlen cmd1))) with (strlen (cmd1 +:+ "; ") + 0)
    by (rewrite strlen_app; unfold strlen; cbn; lia).
  apply (parse_loop_more_fuel _ _ _ (fuel1 - n)) in H2.
  pose proof (parse_loop_shift GENERATED_call tokens (cmd1 +:+ "; ") cmd2
                (fuel2 + (fuel1 - n)) 0 p0) as Hshift.
  rewrite H2 in Hshift.
  remember (dispatched p1) as d1 eqn:Hd1.
  remember (json_output p1) as j1 eqn:Hj1.
  rewrite Hp1. rewrite parse_loop_rebase.
  destruct (parse_loop _ ((cmd1 +:+ "; ") +:+ cmd2) _ p0) as [[p out]|];
    [|done].
  cbn in Hshift. injection Hshift as -> Hout.
  eexists _, _. split; [done|]. cbn.
  split_and!; [done | done | done |].
  split; intros ->; by apply nil_length_inv.
Qed.

End TwoCommands.

Lemma move_tokens_plain : plain_names move_tokens.
Proof.
  intros s token Hin.
  destruct s as [|[|[|n]]|]; cbn in Hin;
    repeat (apply elem_of_cons in Hin as [->|Hin]; [done|]);
    by apply elem_of_nil in Hin.
Qed.

Lemma two_commands_like_separate_calls_witness :
  ∃ p out,
    parse_run move_call move_tokens (20 + 20)
      (two_commands "move left" "move right") empty_stack = Ok (p, out) ∧
    dispatched p = [Some "move left"] ++ [Some "move right"] ∧
    state p = INITIAL ∧ stack p = empty_stack ∧
    (out = [] ↔ @nil string = []).
Proof.
  apply (two_commands_like_separate_calls move_call move_tokens 20 20
           "move left" "move right"
           {| state := INITIAL; stack := empty_stack;
              json_output := Some "move left";
              dispatched := [Some "move left"] |}
           {| state := INITIAL; stack := empty_stack;
              json_output := Some "move right";
              dispatched := [Some "move right"] |} []).
  - apply move_tokens_plain.
  - reflexivity.
  - reflexivity.
  - reflexivity.
Defined.

(** C4, as stated, fails: with the grammar [once_tokens] each of the two
    commands makes its call when it is parsed alone, and the parse of
    both in one input makes the first call only, since the end token has
    left the state INITIAL. *)
Lemma two_commands_unlike_separate_calls :
  ¬ (∀ GENERATED_call tokens fuel cmd1 cmd2 p1 out1 p2 out2 p out,
       parse_run GENERATED_call tokens fuel cmd1 empty_stack = Ok (p1, out1) →
       parse_run GENERATED_call tokens fuel cmd2 empty_stack = Ok (p2, out2) →
       parse_run GENERATED_call tokens fuel (two_commands cmd1 cmd2)
         empty_stack = Ok (p, out) →
       dispatched p = dispatched p1 ++ dispatched p2).
Proof.
  intros H.
  specialize (H move_call once_tokens 20 "move left" "move right"
                _ _ _ _ _ _ eq_refl eq_refl eq_refl).
  vm_compute in H. discriminate H.
Qed.

(** * Further properties of the parser *)

(** ** The stack between two clears *)

Section PackedStack.
Implicit Types (stk : list stack_entry) (pushes : list (string * string)).

Lemma holds_empty : holds [] empty_stack.
Proof. split; [cbn; lia | done]. Qed.

Lemma holds_length pushes stk : holds pushes stk → length stk = 10.
Proof.
  intros [Hlen ->]. rewrite length_app, length_map, length_replicate. lia.
Qed.

Lemma holds_push pushes stk id s stk' :
  holds pushes stk → push_string id s stk = Ok stk' →
  holds (pushes ++ [(id, s)]) stk'.
Proof.
  intros [Hlen ->] Hpush.
  assert (Forall occupied (map (fun '(id, s) => entry id s) pushes)) as Hocc.
  { apply Forall_forall. intros e [[id' s'] [-> _]]%list_elem_of_fmap.
    by eexists. }
  destruct (decide (length pushes = 10)) as [Hfull|Hfree].
  - exfalso. rewrite Hfull in Hpush. cbn [Nat.sub replicate] in Hpush.
    rewrite app_nil_r in Hpush. unfold push_string in Hpush.
    replace 10 with (length (map (fun '(id, s) => entry id s) pushes))
      in Hpush at 1 by (by rewrite length_map).
    by rewrite push_string_from_full in Hpush.
  - replace (10 - length pushes) with (S (10 - S (length pushes))) in Hpush
      by lia.
    cbn [replicate] in Hpush. unfold push_string in Hpush.
    replace 10 with
      (length (map (fun '(id, s) => entry id s) pushes
               ++ null_entry :: replicate (10 - S (length pushes)) null_entry))
      in Hpush at 1
      by (rewrite length_app, length_map; cbn [length];
          rewrite length_replicate; lia).
    rewrite push_string_from_free in Hpush by done. injection Hpush as <-.
    split.
    + rewrite length_app. cbn. lia.
    + rewrite map_app, <- app_assoc, length_app. cbn [map app length].
      by replace (10 - (length pushes + 1)) with (10 - S (length pushes))
        by lia.
Qed.

Lemma holds_get_string pushes stk id :
  holds pushes stk → get_string id stk = first_pushed id pushes.
Proof.
  intros [Hlen ->]. unfold get_string.
  replace 10 with (length pushes + (10 - length pushes)) at 1 by lia.
  apply get_string_from_pushed.
Qed.

Lemma first_pushed_app id pushes id' s :
  first_pushed id (pushes ++ [(id', s)])
  = match first_pushed id pushes with
    | Some v => Some v
    | None => if String.eqb id id' then Some s else None
    end.
Proof.
  induction pushes as [|[id0 s0] pushes IH]; cbn [app first_pushed]; [done|].
  by destruct (String.eqb id id0).
Qed.

(** X1. On a stack that holds the pairs pushed since the last clear, a
    push that returns is seen by [get_string] as follows: an identifier
    that was found before is still found with its old string, the
    identifier pushed is found with the new string if it was not found
    before, and no other identifier is found. *)
Theorem get_string_after_push stk id s stk' id0 :
  packed stk → push_string id s stk = Ok stk' →
  get_string id0 stk'
  = match get_string id0 stk with
    | Some v => Some v
    | None => if String.eqb id0 id then Some s else None
    end.
Proof.
  intros [pushes Hholds] Hpush.
  rewrite (holds_get_string _ _ _ (holds_push _ _ _ _ _ Hholds Hpush)).
  rewrite (holds_get_string _ _ _ Hholds). apply first_pushed_app.
Qed.

Lemma push_all_app pushes1 pushes2 stk :
  push_all (pushes1 ++ pushes2) stk
  = (stk' ← push_all pushes1 stk; push_all pushes2 stk').
Proof.
  revert stk. induction pushes1 as [|[id s] pushes1 IH]; intros stk; [done|].
  cbn [app push_all]. destruct (push_string id s stk); [apply IH | done].
Qed.

(** X2. More than ten pushes without a clear in between stop the
    process, whatever the identifiers and the strings are. *)
Theorem eleventh_push_is_fatal pushes :
  10 < length pushes → push_all pushes empty_stack = Abort StackFull.
Proof.
  intros Hlen. rewrite <- (take_drop 10 pushes), push_all_app.
  pose proof (push_all_replicate (take 10 pushes) [] 10 (Forall_nil_2 _)
                eq_refl) as H.
  rewrite length_take in H. cbn [app] in H. unfold empty_stack.
  rewrite H by lia. clear H.
  replace (10 - 10 `min` length pushes) with 0 by lia.
  cbn [app replicate mbind result_bind]. rewrite app_nil_r.
  destruct (drop 10 pushes) as [|[id s] rest] eqn:Hdrop.
  { apply (f_equal length) in Hdrop. rewrite length_drop in Hdrop.
    cbn in Hdrop. lia. }
  cbn [push_all]. unfold push_string.
  replace 10 with
    (length (map (fun '(id, s) => entry id s) (take 10 pushes))) at 1
    by (rewrite length_map, length_take; lia).
  rewrite push_string_from_full; [done|].
  apply Forall_forall. intros e [[id' s'] [-> _]]%list_elem_of_fmap.
  by eexists.
Qed.

End PackedStack.

Lemma get_string_after_push_witness :
  get_string "b" (<[1 := entry "b" "2"]> (<[0 := entry "a" "1"]> empty_stack))
  = match get_string "b" (<[0 := entry "a" "1"]> empty_stack) with
    | Some v => Some v
    | None => if String.eqb "b" "b" then Some "2" else None
    end.
Proof.
  apply (get_string_after_push (<[0 := entry "a" "1"]> empty_stack) "b" "2").
  - exists [("a", "1")]. split; [cbn; lia | reflexivity].
  - reflexivity.
Defined.

Lemma eleventh_push_is_fatal_witness :
  push_all (replicate 11 ("a", "1")) empty_stack = Abort StackFull.
Proof. apply eleventh_push_is_fatal. cbn. lia. Defined.

(** ** Scans that stop at the end of the input *)

(** A loop whose condition can be read up to [bound] and is false there
    stops at or before [bound]. *)
Lemma advance_while_total cond bound room walk :
  (∀ j, j ≤ bound → ∃ b, cond j = Ok b) → cond bound = Ok false →
  walk ≤ bound → bound - walk < room →
  ∃ e, advance_while cond room walk = Ok e ∧ e ≤ bound.
Proof.
  intros Hread Hstop. revert walk.
  induction room as [|room IH]; intros walk Hwalk Hroom; [lia|].
  cbn [advance_while]. destruct (Hread walk Hwalk) as [[] Hb]; rewrite Hb; cbn.
  - assert (walk ≠ bound) by (intros ->; congruence).
    apply IH; lia.
  - by exists walk.
Qed.

Lemma blank_cond_is_blank input j :
  j ≤ strlen input → blank_cond input j = Ok (is_blank (char_at input j)).
Proof.
  intros Hj. unfold blank_cond. rewrite peek_Ok by done. cbn. f_equal.
  destruct (Ascii.eqb_spec (char_at input j) NUL) as [->|]; [done|].
  apply andb_true_r.
Qed.

Lemma string_cond_delimiter input j :
  j ≤ strlen input →
  string_cond input j = Ok (negb (string_delimiter (char_at input j))).
Proof.
  intros Hj. unfold string_cond, string_delimiter. rewrite peek_Ok by done.
  cbn. f_equal. by rewrite !negb_orb.
Qed.

Lemma word_cond_delimiter input j :
  j ≤ strlen input →
  word_cond input j = Ok (negb (word_delimiter (char_at input j))).
Proof.
  intros Hj. unfold word_cond, word_delimiter. rewrite peek_Ok by done.
  cbn. f_equal. by rewrite !negb_orb.
Qed.

(** X3. The skip of whitespace never leaves the input: from an offset
    within the input it stops at the first character that is neither a
    space nor a tab, at the terminating NUL at the latest. *)
Theorem skip_whitespace_stops_in_input input walk :
  walk ≤ strlen input →
  ∃ e, skip_whitespace input walk = Ok e ∧ walk ≤ e ≤ strlen input ∧
       (∀ j, walk ≤ j < e → is_blank (char_at input j) = true) ∧
       is_blank (char_at input e) = false.
Proof.
  intros Hwalk. unfold skip_whitespace.
  destruct (advance_while_total (blank_cond input) (strlen input)
              (room input walk) walk) as (e & He & Hle).
  - intros j Hj. eexists. by apply blank_cond_is_blank.
  - rewrite blank_cond_is_blank by done. by rewrite char_at_strlen.
  - done.
  - unfold room. lia.
  - exists e. split; [done|].
    apply advance_while_Ok in He as (Hwe & Hfalse & Htrue).
    split; [lia|]. split.
    + intros j Hj. specialize (Htrue j Hj).
      rewrite blank_cond_is_blank in Htrue by lia. congruence.
    + rewrite blank_cond_is_blank in Hfalse by lia. congruence.
Qed.

Lemma skip_whitespace_stops_in_input_witness :
  ∃ e, skip_whitespace "a  b" 1 = Ok e ∧ 1 ≤ e ≤ strlen "a  b" ∧
       (∀ j, 1 ≤ j < e → is_blank (char_at "a  b" j) = true) ∧
       is_blank (char_at "a  b" e) = false.
Proof. apply skip_whitespace_stops_in_input. vm_compute. lia. Defined.

Section Unquoted.
Variable GENERATED_call :
  nat → cmdp_state → list stack_entry → option string * cmdp_state.

#[local] Abbreviation next_state := (next_state GENERATED_call).
#[local] Abbreviation try_token := (try_token GENERATED_call).

Lemma delimiter_not_dquote token c : delimiter token c = true → c ≠ dquote.
Proof.
  unfold delimiter, string_delimiter, word_delimiter. intros H ->.
  by destruct (char_at (name token) 0 =? "s")%char.
Qed.

Lemma delimiter_NUL token : delimiter token NUL = true.
Proof.
  unfold delimiter. by destruct (char_at (name token) 0 =? "s")%char.
Qed.

(** The scan of an unquoted string or word. *)
Lemma scan_unquoted token input walk :
  walk ≤ strlen input → char_at input walk ≠ dquote →
  ∃ e, scan_capture token input walk = Ok (walk, e) ∧
       walk ≤ e ≤ strlen input ∧
       (∀ j, walk ≤ j < e → delimiter token (char_at input j) = false) ∧
       delimiter token (char_at input e) = true.
Proof.
  intros Hwalk Hq. unfold scan_capture, delimiter.
  rewrite peek_Ok by done. cbn [mbind result_bind].
  destruct (Ascii.eqb_spec (char_at input walk) dquote) as [|_]; [done|].
  destruct (char_at (name token) 0 =? "s")%char.
  - destruct (advance_while_total (string_cond input) (strlen input)
                (room input walk) walk) as (e & He & Hle).
    + intros j Hj. eexists. by apply string_cond_delimiter.
    + rewrite string_cond_delimiter by done. by rewrite char_at_strlen.
    + done.
    + unfold room. lia.
    + exists e. rewrite He. split; [done|].
      apply advance_while_Ok in He as (Hwe & Hfalse & Htrue).
      split; [lia|]. split.
      * intros j Hj. specialize (Htrue j Hj).
        rewrite string_cond_delimiter in Htrue by lia.
        injection Htrue as Htrue. by apply negb_true_iff.
      * rewrite string_cond_delimiter in Hfalse by lia.
        injection Hfalse as Hfalse. by apply negb_false_iff.
  - destruct (advance_while_total (word_cond input) (strlen input)
                (room input walk) walk) as (e & He & Hle).
    + intros j Hj. eexists. by apply word_cond_delimiter.
    + rewrite word_cond_delimiter by done. by rewrite char_at_strlen.
    + done.
    + unfold room. lia.
    + exists e. rewrite He. split; [done|].
      apply advance_while_Ok in He as (Hwe & Hfalse & Htrue).
      split; [lia|]. split.
      * intros j Hj. specialize (Htrue j Hj).
        rewrite word_cond_delimiter in Htrue by lia.
        injection Htrue as Htrue. by apply negb_true_iff.
      * rewrite word_cond_delimiter in Hfalse by lia.
        injection Hfalse as Hfalse. by apply negb_false_iff.
Qed.

(** X4. An unquoted string or word runs up to the first delimiter of the
    token, which is in the input or its terminating NUL: the capture
    holds no delimiter, the delimiter itself is not consumed, and a
    capture of length zero is not handled. *)
Theorem unquoted_capture_stops_at_delimiter token input walk p :
  capture_name token → walk ≤ strlen input →
  char_at input walk ≠ dquote →
  ∃ e, walk ≤ e ≤ strlen input ∧
       (∀ j, walk ≤ j < e → delimiter token (char_at input j) = false) ∧
       delimiter token (char_at input e) = true ∧
       try_token token input walk p =
       if decide (e = walk) then Ok (false, walk, p)
       else (p1 ← push (tok_identifier token)
                       (String.substring walk (e - walk) input) p;
             Ok (true, e, next_state token p1)).
Proof.
  intros Hname Hwalk Hq.
  destruct (scan_unquoted token input walk Hwalk Hq)
    as (e & Hscan & He & Hin & Hdelim).
  exists e. split_and!; [lia | lia | done | done |].
  rewrite try_token_capture, Hscan by done. cbn [mbind result_bind].
  destruct (decide (e = walk)) as [->|Hne].
  - by rewrite decide_False by lia.
  - rewrite decide_True by done.
    destruct (push _ _ _); [|done]. cbn [mbind result_bind].
    rewrite peek_Ok by lia. cbn [mbind result_bind].
    apply delimiter_not_dquote in Hdelim.
    by destruct (Ascii.eqb_spec (char_at input e) dquote).
Qed.

End Unquoted.

Lemma unquoted_capture_stops_at_delimiter_witness :
  ∃ e, 5 ≤ e ≤ strlen "move left, move right" ∧
       (∀ j, 5 ≤ j < e →
          delimiter (mk_token "word" (Some "direction") __CALL 7)
            (char_at "move left, move right" j) = false) ∧
       delimiter (mk_token "word" (Some "direction") __CALL 7)
         (char_at "move left, move right" e) = true ∧
       try_token move_call (mk_token "word" (Some "direction") __CALL 7)
         "move left, move right" 5 (start empty_stack) =
       if decide (e = 5) then Ok (false, 5, start empty_stack)
       else (p1 ← push (Some "direction")
                       (String.substring 5 (e - 5) "move left, move right")
                       (start empty_stack);
             Ok (true, e,
                 next_state move_call
                   (mk_token "word" (Some "direction") __CALL 7) p1)).
Proof.
  apply (unquoted_capture_stops_at_delimiter move_call
           (mk_token "word" (Some "direction") __CALL 7)
           "move left, move right" 5 (start empty_stack)).
  - right. reflexivity.
  - vm_compute. lia.
  - intros H. discriminate H.
Defined.

(** ** Literals *)

Lemma tolower_NUL c : tolower c = NUL → c = NUL.
Proof.
  intros H. destruct c as [[] [] [] [] [] [] [] []];
    first [reflexivity | vm_compute in H; discriminate H].
Qed.

(** X5. The comparison of a literal with the input never reads beyond the
    terminating NUL, and it succeeds exactly when every character of the
    literal equals the character of the input at its place up to the
    case of letters; the literal then lies within the input. *)
Theorem literal_match_ignores_case input walk lit :
  walk ≤ strlen input → nul_free lit = true →
  ∃ m, strncasecmp input walk lit (strlen lit) = Ok m ∧
       (m = true ↔
        ∀ i, i < strlen lit →
             tolower (char_at input (walk + i)) = tolower (char_at lit i)) ∧
       (m = true → walk + strlen lit ≤ strlen input).
Proof.
  revert walk. induction lit as [|c2 lit IH]; intros walk Hwalk Hnul.
  - exists true. split; [done|]. split; [|unfold strlen in *; cbn; lia].
    split; [|done]. intros _ i Hi. unfold strlen in Hi. cbn in Hi. lia.
  - cbn [nul_free] in Hnul. apply andb_true_iff in Hnul as [Hc2 Hnul].
    apply negb_true_iff, Ascii.eqb_neq in Hc2.
    change (strlen (String c2 lit)) with (S (strlen lit)).
    cbn [strncasecmp]. rewrite peek_Ok by done. cbn [mbind result_bind].
    change (char_at (String c2 lit) 0) with c2.
    change (tail (String c2 lit)) with lit.
    destruct (Ascii.eqb_spec (tolower (char_at input walk)) (tolower c2))
      as [Heq|Hne]; cbn [negb].
    + destruct (Ascii.eqb_spec (char_at input walk) NUL) as [Hz|Hz].
      { exfalso. rewrite Hz in Heq. apply Hc2, tolower_NUL. by rewrite <- Heq. }
      assert (walk < strlen input) as Hlt.
      { destruct (decide (walk = strlen input)) as [->|]; [|lia].
        by rewrite char_at_strlen in Hz. }
      destruct (IH (S walk) Hlt Hnul) as (m & Hm & Hiff & Hbound).
      exists m. split; [done|]. split; [|intros ?; specialize (Hbound ltac:(done)); lia].
      rewrite Hiff. split.
      * intros H [|i] Hi.
        -- by rewrite Nat.add_0_r.
        -- replace (walk + S i) with (S walk + i) by lia.
           change (char_at (String c2 lit) (S i)) with (char_at lit i).
           apply H. lia.
      * intros H i Hi. specialize (H (S i) ltac:(lia)).
        by replace (walk + S i) with (S walk + i) in H by lia.
    + exists false. split; [done|]. split; [|done].
      split; [done|]. intros H. exfalso. apply Hne.
      specialize (H 0 ltac:(lia)). by rewrite Nat.add_0_r in H.
Qed.

Lemma literal_match_ignores_case_witness :
  ∃ m, strncasecmp "MoVe left" 0 "move" (strlen "move") = Ok m ∧
       (m = true ↔
        ∀ i, i < strlen "move" →
             tolower (char_at "MoVe left" (0 + i)) = tolower (char_at "move" i)) ∧
       (m = true → 0 + strlen "move" ≤ strlen "MoVe left").
Proof.
  apply (literal_match_ignores_case "MoVe left" 0 "move");
    [vm_compute; lia | reflexivity].
Defined.

(** ** The loop over the tokens of a state *)

Lemma scan_capture_bounds token input walk beg e :
  scan_capture token input walk = Ok (beg, e) →
  walk ≤ beg ≤ e ∧ (char_at input walk ≠ dquote → beg = walk).
Proof.
  unfold scan_capture, peek. intros H.
  case_decide; [|done]. cbn [mbind result_bind] in H.
  destruct (Ascii.eqb_spec (char_at input walk) dquote) as [Hq|Hq].
  - apply bind_Ok in H as (w & Hw & H). inv_result.
    apply advance_while_Ok in Hw as (Hle & _). split; [lia | done].
  - destruct (char_at (name token) 0 =? "s")%char;
      apply bind_Ok in H as (w & Hw & H); inv_result;
      apply advance_while_Ok in Hw as (Hle & _); (split; [lia | done]).
Qed.

Lemma literal_name s :
  (char_at s 0 =? squote)%char = true → s = String squote (tail s).
Proof.
  destruct s as [|c s]; [done|]. cbn. by intros ->%Ascii.eqb_eq.
Qed.

Section TokenLoop.
Variable GENERATED_call :
  nat → cmdp_state → list stack_entry → option string * cmdp_state.

#[local] Abbreviation next_state := (next_state GENERATED_call).
#[local] Abbreviation try_token := (try_token GENERATED_call).
#[local] Abbreviation try_tokens := (try_tokens GENERATED_call).

(** What one token does to [walk]. *)
Lemma try_token_walk token input walk p h w p' :
  try_token token input walk p = Ok (h, w, p') →
  walk ≤ w ∧
  (h = true → name token ≠ empty_literal → walk < w) ∧
  (h = false → char_at input walk ≠ dquote → w = walk).
Proof.
  unfold try_token. intros H.
  destruct (char_at (name token) 0 =? squote)%char eqn:Hlit.
  - apply literal_name in Hlit.
    apply bind_Ok in H as ([] & _ & H).
    + apply bind_Ok in H as (p1 & _ & H). inv_result.
      split; [lia|]. split; [|done]. intros _ Hne.
      destruct (tail (name token)) as [|c lit] eqn:Htail.
      * by rewrite Hlit in Hne.
      * rewrite Hlit. unfold strlen. cbn. lia.
    + inv_result. split; [lia|]. split; done.
  - destruct (String.eqb _ "string" || String.eqb _ "word") eqn:Hcap.
    + rewrite (capture_not_end _ Hcap) in H.
      apply bind_Ok in H as ([[h0 w0] p0] & Hblock & H).
      apply bind_Ok in Hblock as ([beg e] & Hscan & Hblock).
      apply scan_capture_bounds in Hscan as [Hbeg Hq].
      case_decide.
      * apply bind_Ok in Hblock as (p1 & _ & Hblock).
        apply bind_Ok in Hblock as (c & _ & Hblock). inv_result.
        split; [destruct (c =? dquote)%char; lia|]. split; [|done].
        intros _ _. destruct (c =? dquote)%char; lia.
      * inv_result. split; [lia|]. split; [done|].
        intros _ Hnq. specialize (Hq Hnq). lia.
    + cbn [mbind result_bind] in H. destruct (String.eqb _ "end").
      * apply bind_Ok in H as (c & _ & H).
        destruct ((c =? NUL) || (c =? ",") || (c =? ";"))%char; inv_result.
        -- split; [lia|]. split; [intros; lia | done].
        -- split; [lia|]. split; done.
      * inv_result. split; [lia|]. split; done.
Qed.


(** What a list of tokens does to [walk]. *)
Lemma try_tokens_walk toks input walk p h w p' :
  try_tokens toks input walk p = Ok (h, w, p') →
  walk ≤ w ∧
  (∀ token, h = Some token → name token ≠ empty_literal → walk < w) ∧
  (h = None → char_at input walk ≠ dquote → w = walk).
Proof.
  revert walk. induction toks as [|t toks IH]; intros walk H.
  - cbn in H. inv_result. split; [lia|]. split; done.
  - cbn [try_tokens] in H.
    apply bind_Ok in H as ([[[] w1] p1] & Ht & H).
    + inv_result. apply try_token_walk in Ht as (Hle & Hlt & _).
      split; [done|]. split; [|done]. intros token [= <-]. by apply Hlt.
    + apply try_token_unhandled in Ht as Hp. subst p1.
      apply try_token_walk in Ht as (Hle & _ & Hsame).
      apply IH in H as (Hle' & Hlt' & Hsame').
      split; [lia|]. split.
      * intros token Hh Hne. specialize (Hlt' token Hh Hne). lia.
      * intros Hh Hq. specialize (Hsame eq_refl Hq). subst w1.
        by apply Hsame'.
Qed.

(** X7. When no token of the list matches, the state, the stack and the
    output of the parser are what they were; [walk] has not moved
    backwards, and has not moved at all unless it was at a double
    quote. *)
Theorem no_match_changes_nothing toks input walk p w p' :
  try_tokens toks input walk p = Ok (None, w, p') →
  p' = p ∧ walk ≤ w ∧ (char_at input walk ≠ dquote → w = walk).
Proof.
  intros H. split; [by eapply try_tokens_unhandled|].
  apply try_tokens_walk in H as (Hle & _ & Hsame).
  split; [done | by apply Hsame].
Qed.

(** X8. A token that is handled moves [walk] forward by at least one
    character, unless it is the literal of length zero. *)
Theorem handled_token_consumes_input toks token input walk p w p' :
  try_tokens toks input walk p = Ok (Some token, w, p') →
  name token ≠ empty_literal → walk < w.
Proof.
  intros (_ & Hlt & _)%try_tokens_walk Hne. by apply (Hlt token).
Qed.

End TokenLoop.


Lemma no_match_changes_nothing_witness :
  start empty_stack = start empty_stack ∧ 0 ≤ 0 ∧
  (char_at "bogus" 0 ≠ dquote → 0 = 0).
Proof.
  apply (no_match_changes_nothing move_call (move_tokens INITIAL) "bogus" 0
           (start empty_stack) 0 (start empty_stack)).
  reflexivity.
Defined.

Lemma handled_token_consumes_input_witness : 0 < 4.
Proof.
  apply (handled_token_consumes_input move_call (move_tokens INITIAL)
           (mk_token "'move" None MOVE 0) "move left" 0 (start empty_stack) 4
           {| state := MOVE; stack := empty_stack;
              json_output := None; dispatched := [] |}).
  - reflexivity.
  - intros H. discriminate H.
Defined.

(** ** How the parser can stop *)

Lemma bind_Abort_inv {A B} (m : result A) (f : A → result B) why :
  m ≫= f = Abort why → m = Abort why ∨ ∃ a, m = Ok a ∧ f a = Abort why.
Proof.
  destruct m as [a|why']; cbn; intros H; [right; by exists a|].
  left. by injection H as ->.
Qed.

Lemma peek_abort input i why : peek input i = Abort why → why = OutOfBounds.
Proof. unfold peek. case_decide; intros Hp; by simplify_eq. Qed.

Lemma advance_while_abort cond room walk why :
  (∀ j why', cond j = Abort why' → why' = OutOfBounds) →
  advance_while cond room walk = Abort why → why = OutOfBounds.
Proof.
  intros Hcond. revert walk.
  induction room as [|room IH]; intros walk H; [by injection H as <-|].
  cbn [advance_while] in H.
  apply bind_Abort_inv in H as [H | ([] & _ & H)]; [by eapply Hcond | by eapply IH | done].
Qed.

Lemma blank_cond_abort input j why :
  blank_cond input j = Abort why → why = OutOfBounds.
Proof.
  unfold blank_cond.
  intros [H | (c & _ & H)]%bind_Abort_inv; [by eapply peek_abort | done].
Qed.

Lemma string_cond_abort input j why :
  string_cond input j = Abort why → why = OutOfBounds.
Proof.
  unfold string_cond.
  intros [H | (c & _ & H)]%bind_Abort_inv; [by eapply peek_abort | done].
Qed.

Lemma word_cond_abort input j why :
  word_cond input j = Abort why → why = OutOfBounds.
Proof.
  unfold word_cond.
  intros [H | (c & _ & H)]%bind_Abort_inv; [by eapply peek_abort | done].
Qed.

Lemma quoted_cond_abort input j why :
  quoted_cond input j = Abort why → why = OutOfBounds.
Proof.
  unfold quoted_cond.
  intros [H | (c & _ & H)]%bind_Abort_inv; [by eapply peek_abort|].
  destruct (negb _); [done|].
  apply bind_Abort_inv in H as [H | (c' & _ & H)]; [by eapply peek_abort | done].
Qed.

Lemma skip_whitespace_abort input walk why :
  skip_whitespace input walk = Abort why → why = OutOfBounds.
Proof. apply advance_while_abort, blank_cond_abort. Qed.

Lemma scan_capture_abort token input walk why :
  scan_capture token input walk = Abort why → why = OutOfBounds.
Proof.
  unfold scan_capture.
  intros [H | (c & _ & H)]%bind_Abort_inv; [by eapply peek_abort|].
  destruct (c =? dquote)%char; [|destruct (_ =? "s")%char];
    apply bind_Abort_inv in H as [H | (w & _ & H)]; try done;
    eapply advance_while_abort; try exact H;
    eauto using quoted_cond_abort, string_cond_abort, word_cond_abort.
Qed.

Lemma strncasecmp_abort input walk lit n why :
  strncasecmp input walk lit n = Abort why → why = OutOfBounds.
Proof.
  revert walk lit. induction n as [|n IH]; intros walk lit H; [done|].
  cbn [strncasecmp] in H.
  apply bind_Abort_inv in H as [H | (c & _ & H)]; [by eapply peek_abort|].
  destruct (negb _); [done|]. destruct (c =? NUL)%char; [done | by eapply IH].
Qed.

Lemma push_string_from_abort n c id s stk why :
  push_string_from n c id s stk = Abort why → why = StackFull.
Proof.
  revert c. induction n as [|n IH]; intros c H; [by injection H as <-|].
  cbn [push_string_from] in H.
  destruct (identifier (slot stk c)); [by eapply IH | done].
Qed.

Lemma push_abort id s p why : push id s p = Abort why → why = StackFull.
Proof.
  destruct id as [id|]; [|done]. unfold push.
  intros [H | (st & _ & H)]%bind_Abort_inv; [|done].
  by eapply push_string_from_abort.
Qed.

(** In a comparison that starts within the input, every read is within
    the input. *)
Lemma strncasecmp_in_input input walk lit n :
  walk ≤ strlen input → ∃ m, strncasecmp input walk lit n = Ok m.
Proof.
  revert walk lit. induction n as [|n IH]; intros walk lit Hwalk;
    [by exists true|].
  cbn [strncasecmp]. rewrite peek_Ok by done. cbn [mbind result_bind].
  destruct (negb _); [by exists false|].
  destruct (Ascii.eqb_spec (char_at input walk) NUL) as [Hz|Hz];
    [by exists true|].
  apply IH. destruct (decide (walk = strlen input)) as [->|]; [|lia].
  by rewrite char_at_strlen in Hz.
Qed.

Lemma skip_whitespace_in_input input walk :
  walk ≤ strlen input →
  ∃ e, skip_whitespace input walk = Ok e ∧ walk ≤ e ≤ strlen input.
Proof.
  intros Hwalk. unfold skip_whitespace.
  destruct (advance_while_total (blank_cond input) (strlen input)
              (room input walk) walk) as (e & He & Hle).
  - intros j Hj. eexists. by apply blank_cond_is_blank.
  - rewrite blank_cond_is_blank by done. by rewrite char_at_strlen.
  - done.
  - unfold room. lia.
  - exists e. split; [done|].
    apply advance_while_Ok in He as (Hwe & _). lia.
Qed.

Section Stops.
Variable GENERATED_call :
  nat → cmdp_state → list stack_entry → option string * cmdp_state.
Variable tokens : cmdp_state → list cmdp_token.

#[local] Abbreviation next_state := (next_state GENERATED_call).
#[local] Abbreviation try_token := (try_token GENERATED_call).
#[local] Abbreviation try_tokens := (try_tokens GENERATED_call).
#[local] Abbreviation parse_loop := (parse_loop GENERATED_call tokens).
#[local] Abbreviation parse_run := (parse_run GENERATED_call tokens).

Lemma try_token_abort token input walk p why :
  try_token token input walk p = Abort why →
  why = OutOfBounds ∨ why = StackFull.
Proof.
  unfold try_token. intros H.
  destruct (char_at (name token) 0 =? squote)%char.
  - apply bind_Abort_inv in H as [H | ([] & _ & H)];
      [left; by eapply strncasecmp_abort | | done].
    apply bind_Abort_inv in H as [H | (p1 & _ & H)]; [|done].
    right. by eapply push_abort.
  - destruct (String.eqb _ "string" || String.eqb _ "word") eqn:Hcap.
    + rewrite (capture_not_end _ Hcap) in H.
      apply bind_Abort_inv in H as [H | ([[[] w0] p0] & _ & H)]; [|done|done].
      apply bind_Abort_inv in H as [H | ([beg e] & _ & H)];
        [left; by eapply scan_capture_abort|].
      case_decide; [|done].
      apply bind_Abort_inv in H as [H | (p1 & _ & H)];
        [right; by eapply push_abort|].
      apply bind_Abort_inv in H as [H | (c & _ & H)]; [|done].
      left. by eapply peek_abort.
    + cbn [mbind result_bind] in H. destruct (String.eqb _ "end"); [|done].
      apply bind_Abort_inv in H as [H | (c & _ & H)];
        [left; by eapply peek_abort|].
      by destruct ((c =? NUL) || (c =? ",") || (c =? ";"))%char.
Qed.

Lemma try_tokens_abort toks input walk p why :
  try_tokens toks input walk p = Abort why →
  why = OutOfBounds ∨ why = StackFull.
Proof.
  revert walk p. induction toks as [|t toks IH]; intros walk p H; [done|].
  cbn [try_tokens] in H.
  apply bind_Abort_inv in H as [H | ([[[] w1] p1] & _ & H)];
    [by eapply try_token_abort | done | by eapply IH].
Qed.

(** X9. With a grammar that has no literal of length zero the main loop
    comes to an end: after at most one iteration for every character
    that is left of the input, and two more, [parse_command] has
    returned, or the process has stopped on a full stack or on a read
    outside of the input. *)
Theorem parse_loop_terminates fuel input walk p :
  (∀ s token, token ∈ tokens s → name token ≠ empty_literal) →
  S (S (strlen input) - walk) ≤ fuel →
  parse_loop fuel input walk p ≠ Abort OutOfFuel.
Proof.
  intros Hgrammar. revert walk p.
  induction fuel as [|fuel IH]; intros walk p Hfuel; [lia|].
  cbn [parse_loop]. case_decide as Hwalk; [|done].
  destruct (skip_whitespace input walk) as [w1|why] eqn:Hskip;
    cbn [mbind result_bind].
  2:{ apply skip_whitespace_abort in Hskip as ->. done. }
  apply advance_while_Ok in Hskip as (Hw1 & _).
  destruct (try_tokens (tokens (state p)) input w1 p)
    as [[[[token|] w2] p2]|why] eqn:Htry; cbn [mbind result_bind].
  - apply IH.
    pose proof (try_tokens_handled _ _ _ _ _ _ _ _ Htry) as [Hin _].
    apply try_tokens_walk in Htry as (_ & Hlt & _).
    specialize (Hlt token eq_refl (Hgrammar _ _ Hin)). lia.
  - done.
  - by apply try_tokens_abort in Htry as [-> | ->].
Qed.

(** X10. A state whose first token is the literal of length zero, with no
    identifier and with the state itself as its target, is never left:
    the token matches at every offset without moving [walk], so that the
    main loop does not come to an end, whatever the input is. *)
Theorem empty_literal_never_ends s token rest fuel input walk p :
  tokens s = token :: rest →
  name token = empty_literal → tok_identifier token = None →
  tok_next_state token = s → s ≠ __CALL →
  walk ≤ strlen input → state p = s →
  parse_loop fuel input walk p = Abort OutOfFuel.
Proof.
  intros Htokens Hname Hid Hnext Hcall. revert walk p.
  induction fuel as [|fuel IH]; intros walk p Hwalk Hstate; [done|].
  rewrite parse_loop_S by done.
  destruct (skip_whitespace_in_input input walk Hwalk) as (w1 & -> & Hw1).
  cbn [mbind result_bind]. rewrite Hstate, Htokens.
  cbn [try_tokens]. unfold try_token at 1.
  rewrite Hname, Hid. cbn. rewrite Nat.add_0_r.
  apply IH; [lia|].
  unfold next_state. rewrite decide_False by (by rewrite Hnext). done.
Qed.

Lemma try_token_quote_free token input walk p why :
  quote_free input → walk ≤ strlen input →
  try_token token input walk p = Abort why → why = StackFull.
Proof.
  unfold try_token. intros Hfree Hwalk H.
  destruct (char_at (name token) 0 =? squote)%char.
  - destruct (strncasecmp_in_input input walk (tail (name token))
                (strlen (name token) - 1) Hwalk) as [m Hm].
    rewrite Hm in H. cbn [mbind result_bind] in H. destruct m; [|done].
    apply bind_Abort_inv in H as [H | (p1 & _ & H)]; [|done].
    by eapply push_abort.
  - destruct (String.eqb _ "string" || String.eqb _ "word") eqn:Hcap.
    + rewrite (capture_not_end _ Hcap) in H.
      destruct (scan_unquoted token input walk Hwalk (Hfree walk))
        as (e & Hscan & He & _).
      rewrite Hscan in H. cbn [mbind result_bind] in H.
      case_decide; [|done].
      apply bind_Abort_inv in H as [H | ([[[] w0] p0] & _ & H)]; [|done|done].
      apply bind_Abort_inv in H as [H | (p1 & _ & H)]; [by eapply push_abort|].
      rewrite peek_Ok in H by lia. done.
    + cbn [mbind result_bind] in H. destruct (String.eqb _ "end"); [|done].
      rewrite peek_Ok in H by done. cbn [mbind result_bind] in H.
      by destruct ((_ =? NUL) || (_ =? ",") || (_ =? ";"))%char.
Qed.

Lemma try_tokens_quote_free toks input walk p why :
  quote_free input → walk ≤ strlen input →
  try_tokens toks input walk p = Abort why → why = StackFull.
Proof.
  intros Hfree Hwalk. revert p.
  induction toks as [|t toks IH]; intros p H; [done|].
  cbn [try_tokens] in H.
  apply bind_Abort_inv in H as [H | ([[[] w1] p1] & Ht & H)];
    [by eapply try_token_quote_free | done |].
  apply try_token_walk in Ht as (_ & _ & Hsame).
  rewrite (Hsame eq_refl (Hfree walk)) in H. by eapply IH.
Qed.

(** X11. On an input without a double quote the parser never reads
    outside of the input, whatever the grammar is: the scan for a
    closing double quote is the only loop that can pass the terminating
    NUL. *)
Theorem quote_free_input_is_not_overrun fuel input walk p :
  quote_free input → parse_loop fuel input walk p ≠ Abort OutOfBounds.
Proof.
  intros Hfree. revert walk p.
  induction fuel as [|fuel IH]; intros walk p; [done|].
  cbn [parse_loop]. case_decide as Hwalk; [|done].
  destruct (skip_whitespace_in_input input walk Hwalk) as (w1 & -> & Hw1).
  cbn [mbind result_bind].
  destruct (try_tokens (tokens (state p)) input w1 p)
    as [[[[token|] w2] p2]|why] eqn:Htry; cbn [mbind result_bind].
  - apply IH.
  - done.
  - apply try_tokens_quote_free in Htry as ->; [done | done | lia].
Qed.

End Stops.

Lemma move_tokens_no_empty_literal s token :
  token ∈ move_tokens s → name token ≠ empty_literal.
Proof.
  intros Hin.
  destruct s as [|[|[|n]]|]; cbn in Hin;
    repeat (apply elem_of_cons in Hin as [->|Hin]; [done|]);
    by apply elem_of_nil in Hin.
Qed.

Lemma parse_loop_terminates_witness :
  parse_loop move_call move_tokens 11 "move left" 0 (start empty_stack)
  ≠ Abort OutOfFuel.
Proof.
  apply parse_loop_terminates.
  - apply move_tokens_no_empty_literal.
  - vm_compute. lia.
Defined.

Lemma empty_literal_never_ends_witness :
  parse_loop move_call
    (fun _ => [mk_token empty_literal None INITIAL 0]) 100 "move" 0
    (start empty_stack) = Abort OutOfFuel.
Proof.
  apply (empty_literal_never_ends move_call
           (fun _ => [mk_token empty_literal None INITIAL 0]) INITIAL
           (mk_token empty_literal None INITIAL 0) []);
    try reflexivity; [intros H; discriminate H | vm_compute; lia].
Defined.

Lemma quote_free_input_is_not_overrun_witness :
  parse_loop move_call move_tokens 11 "move left" 0 (start empty_stack)
  ≠ Abort OutOfBounds.
Proof.
  apply quote_free_input_is_not_overrun.
  intros i. do 10 (destruct i as [|i]; [intros H; discriminate H|]).
  intros H. discriminate H.
Defined.

(** ** The error message *)

Lemma strlen_string_of_list_ascii l :
  strlen (string_of_list_ascii l) = length l.
Proof. unfold strlen. induction l as [|c l IH]; [done|]. cbn. by rewrite IH. Qed.

Lemma char_at_marks (f : nat → ascii) start len i :
  i < len →
  char_at (string_of_list_ascii (map f (seq start len))) i = f (start + i).
Proof.
  revert start i. induction len as [|len IH]; intros start i Hi; [lia|].
  destruct i as [|i]; cbn [seq map string_of_list_ascii].
  - by rewrite Nat.add_0_r.
  - change (char_at (String ?c ?s) (S i)) with (char_at s i).
    rewrite IH by lia. f_equal. lia.
Qed.

Lemma strlen_cons c s : strlen (String c s) = S (strlen s).
Proof. done. Qed.

Lemma char_at_cons c s i : char_at (String c s) (S i) = char_at s i.
Proof. done. Qed.

(** X12. In the error message the line of marks is as long as the line
    of the command, and under the character of the input at the offset
    [i] there is a [^] when [walk] is at or before [i], and a space
    otherwise. *)
Theorem marks_are_under_the_rest toks input walk :
  ∃ message command marks,
    error_lines toks input walk = [message; command; marks] ∧
    strlen marks = strlen command ∧
    ∀ i, i < strlen input →
      char_at command (14 + i) = char_at input i ∧
      char_at marks (14 + i)
      = if decide (walk ≤ i) then "^"%char else " "%char.
Proof.
  unfold error_lines. eexists _, _, _. split; [done|]. split.
  - rewrite !strlen_app. unfold position.
    by rewrite strlen_string_of_list_ascii, length_map, length_seq.
  - intros i Hi. split.
    + apply (char_at_app_r "Your command: " input i).
    + etransitivity;
        [apply (char_at_app_r "              "
                  (position (strlen input) walk) i)|].
      unfold position. by rewrite char_at_marks.
Qed.

Lemma tokenlen_from n toks :
  foldl (fun n token => n + (strlen (name token) + strlen "'', ")) n toks
  = n + tokenlen toks.
Proof.
  unfold tokenlen. revert n.
  induction toks as [|t toks IH]; intros n; cbn [foldl]; [lia|].
  rewrite (IH (n + _)), (IH (0 + _)). lia.
Qed.

Lemma tokenlen_cons token toks :
  tokenlen (token :: toks) = strlen (name token) + 4 + tokenlen toks.
Proof.
  unfold tokenlen at 1. cbn [foldl]. rewrite tokenlen_from.
  unfold strlen. cbn. lia.
Qed.

Lemma strlen_token_label token :
  strlen (token_label token) ≤ strlen (name token) + 2.
Proof.
  unfold token_label.
  destruct (char_at (name token) 0 =? squote)%char eqn:Hlit.
  - apply literal_name in Hlit. rewrite Hlit at 2.
    rewrite !strlen_cons, strlen_app, strlen_cons. unfold strlen. cbn. lia.
  - rewrite !strlen_app. unfold strlen. cbn. lia.
Qed.

(** X13. The names of the tokens fit into the buffer that is allocated
    for them: the string that lists them is no longer than the number of
    bytes that was counted, which leaves the byte that is allocated on
    top of them for the terminating NUL. *)
Theorem possible_tokens_fit_buffer toks :
  strlen (possible_tokens toks) ≤ tokenlen toks.
Proof.
  unfold possible_tokens.
  induction toks as [|t toks IH]; [done|].
  rewrite tokenlen_cons. pose proof (strlen_token_label t) as Hlabel.
  cbn [map String.concat]. destruct (map token_label toks) as [|l ls] eqn:Hls.
  - lia.
  - rewrite !strlen_app. change (strlen ", ") with 2. lia.
Qed.

(** ** Whitespace before a command *)

Section Whitespace.
Variable GENERATED_call :
  nat → cmdp_state → list stack_entry → option string * cmdp_state.
Variable tokens : cmdp_state → list cmdp_token.

#[local] Abbreviation parse_loop := (parse_loop GENERATED_call tokens).
#[local] Abbreviation parse_run := (parse_run GENERATED_call tokens).

Lemma parse_loop_skips_blank fuel input w p :
  w < strlen input → is_blank (char_at input w) = true →
  parse_loop fuel input w p = parse_loop fuel input (S w) p.
Proof.
  intros Hw Hblank. destruct fuel as [|fuel]; [done|].
  rewrite !parse_loop_S by lia.
  assert (skip_whitespace input w = skip_whitespace input (S w)) as ->; [|done].
  unfold skip_whitespace.
  replace (room input w) with (S (room input (S w))) by (unfold room; lia).
  cbn [advance_while].
  rewrite blank_cond_is_blank, Hblank by lia. done.
Qed.

(** X14. A space or a tab before the input makes no difference to the
    parse: the calls that are made, the state, the stack and the output
    at the end are the same, and an error message is printed for the one
    when it is printed for the other. *)
Theorem leading_blank_is_ignored fuel c input stack0 :
  is_blank c = true →
  (fun r => (r.1, length r.2)) <$> parse_run fuel (String c input) stack0
  = (fun r => (r.1, length r.2)) <$> parse_run fuel input stack0.
Proof.
  intros Hblank. unfold parse_run.
  rewrite parse_loop_skips_blank; [| rewrite strlen_cons; lia | done].
  apply (parse_loop_shift GENERATED_call tokens (String c EmptyString) input
           fuel 0).
Qed.

End Whitespace.

Lemma leading_blank_is_ignored_witness :
  (fun r => (r.1, length r.2))
    <$> parse_run move_call move_tokens 20 (String TAB "move left") empty_stack
  = (fun r => (r.1, length r.2))
    <$> parse_run move_call move_tokens 20 "move left" empty_stack.
Proof. apply leading_blank_is_ignored. reflexivity. Defined.

(** ** The end of the input, and the stack during a parse *)

Section EndOfInput.
Variable GENERATED_call :
  nat → cmdp_state → list stack_entry → option string * cmdp_state.
Variable tokens : cmdp_state → list cmdp_token.

#[local] Abbreviation next_state := (next_state GENERATED_call).
#[local] Abbreviation try_token := (try_token GENERATED_call).
#[local] Abbreviation try_tokens := (try_tokens GENERATED_call).
#[local] Abbreviation parse_loop := (parse_loop GENERATED_call tokens).

(** X15. At the end of the input no string, no word and no literal other
    than the literal of length zero matches: the only token that is
    handled there and moves [walk] is the end token, which steps over
    the terminating NUL and pushes nothing. *)
Theorem only_end_matches_at_end token input p w p' :
  nul_free (name token) = true →
  try_token token input (strlen input) p = Ok (true, w, p') →
  (name token = "end" ∧ w = S (strlen input) ∧ p' = next_state token p) ∨
  (name token = empty_literal ∧ w = strlen input).
Proof.
  unfold try_token. intros Hnul H.
  destruct (char_at (name token) 0 =? squote)%char eqn:Hlit.
  - apply literal_name in Hlit.
    destruct (tail (name token)) as [|c lit] eqn:Htail.
    + right. rewrite Hlit in *. cbn in H. inv_result. split; [done | lia].
    + exfalso. rewrite Hlit in Hnul, H. cbn [nul_free] in Hnul.
      apply andb_true_iff in Hnul as [_ [Hc _]%andb_true_iff].
      apply negb_true_iff, Ascii.eqb_neq in Hc.
      change (strlen (String squote (String c lit)) - 1)
        with (S (strlen lit)) in H.
      cbn [strncasecmp] in H. rewrite peek_Ok, char_at_strlen in H by done.
      cbn [mbind result_bind] in H.
      change (char_at (String c lit) 0) with c in H.
      destruct (Ascii.eqb_spec (tolower NUL) (tolower c)) as [Heq|Hne];
        cbn [negb] in H; [|by inv_result].
      apply Hc, tolower_NUL. by rewrite <- Heq.
  - destruct (String.eqb _ "string" || String.eqb _ "word") eqn:Hcap.
    + exfalso. rewrite (capture_not_end _ Hcap) in H.
      destruct (scan_unquoted token input (strlen input) (Nat.le_refl _))
        as (e & Hscan & He & _).
      { by rewrite char_at_strlen. }
      rewrite Hscan in H. cbn [mbind result_bind] in H.
      rewrite decide_False in H by lia. by inv_result.
    + cbn [mbind result_bind] in H.
      destruct (String.eqb_spec (name token) "end") as [Hend|]; [|by inv_result].
      rewrite peek_Ok, char_at_strlen in H by done.
      cbn in H. inv_result. by left.
Qed.

Lemma pushed_onto_packed p p1 :
  pushed_onto p p1 → packed (stack p) → packed (stack p1).
Proof.
  intros (_ & _ & _ & [-> | (id & s & Hpush)]) [pushes Hholds]; [by exists pushes|].
  exists (pushes ++ [(id, s)]). by eapply holds_push.
Qed.

Lemma next_state_packed token p :
  packed (stack p) → packed (stack (next_state token p)).
Proof.
  intros [pushes Hholds]. pose proof (holds_length _ _ Hholds) as Hlen.
  unfold next_state. case_decide.
  - destruct (GENERATED_call _ _ _). cbn. rewrite clear_stack_10 by done.
    exists []. apply holds_empty.
  - cbn. case_decide; [|by exists pushes].
    rewrite clear_stack_10 by done. exists []. apply holds_empty.
Qed.

(** X16. The stack stays in order during a parse: if it holds, when the
    parse starts, the pairs pushed since it was last cleared followed by
    empty slots, then it does so when the parse returns, so that the
    first empty slot at which [get_string] gives up is never followed by
    a pair. *)
Theorem parse_keeps_stack_packed fuel input walk p p' out :
  parse_loop fuel input walk p = Ok (p', out) →
  packed (stack p) → packed (stack p').
Proof.
  revert walk p. induction fuel as [|fuel IH]; intros walk p H Hp; [done|].
  cbn [parse_loop] in H. case_decide; [|by inv_result].
  apply bind_Ok in H as (w1 & _ & H).
  apply bind_Ok in H as ([[[token|] w2] p2] & Htry & H).
  - apply try_tokens_handled in Htry as (_ & p1 & Hp1 & ->).
    eapply IH; [done|]. by eapply next_state_packed, pushed_onto_packed.
  - apply try_tokens_unhandled in Htry as ->. by inv_result.
Qed.

End EndOfInput.

Lemma only_end_matches_at_end_witness :
  (name (mk_token "end" None INITIAL 0) = "end" ∧ 10 = S (strlen "move left") ∧
   start empty_stack
   = next_state move_call (mk_token "end" None INITIAL 0) (start empty_stack)) ∨
  (name (mk_token "end" None INITIAL 0) = empty_literal ∧
   10 = strlen "move left").
Proof.
  apply (only_end_matches_at_end move_call (mk_token "end" None INITIAL 0)
           "move left" (start empty_stack) 10 (start empty_stack));
    reflexivity.
Defined.

Lemma parse_keeps_stack_packed_witness :
  packed (stack {| state := MOVE;
                   stack := <[0 := entry "direction" "left"]> empty_stack;
                   json_output := None; dispatched := [] |}).
Proof.
  apply (parse_keeps_stack_packed output_call
           (fun _ => [mk_token "word" (Some "direction") MOVE 0;
                      mk_token "end" None MOVE 0])
           3 "left" 0 (start empty_stack) _ []).
  - reflexivity.
  - exists []. split; [cbn; lia | reflexivity].
Defined.

(** ** Tokens without an identifier *)

Section NoIdentifier.
Variable GENERATED_call :
  nat → cmdp_state → list stack_entry → option string * cmdp_state.

#[local] Abbreviation next_state := (next_state GENERATED_call).
#[local] Abbreviation try_token := (try_token GENERATED_call).
#[local] Abbreviation try_tokens := (try_tokens GENERATED_call).

Lemma try_token_no_identifier token input walk p w p' :
  tok_identifier token = None ∨ name token = "end" →
  try_token token input walk p = Ok (true, w, p') → p' = next_state token p.
Proof.
  unfold try_token. intros Hid H.
  destruct (char_at (name token) 0 =? squote)%char eqn:Hlit.
  - destruct Hid as [Hid|Hend]; [|by rewrite Hend in Hlit].
    rewrite Hid in H. cbn [push] in H.
    apply bind_Ok in H as ([] & _ & H); cbn [mbind result_bind] in H;
      by inv_result.
  - destruct (String.eqb _ "string" || String.eqb _ "word") eqn:Hcap.
    + rewrite (capture_not_end _ Hcap) in H.
      destruct Hid as [Hid|Hend]; [|by rewrite Hend in Hcap].
      rewrite Hid in H.
      apply bind_Ok in H as ([[h0 w0] p0] & Hblock & H).
      apply bind_Ok in Hblock as ([beg e] & _ & Hblock).
      case_decide; [|by inv_result].
      cbn [push mbind result_bind] in Hblock.
      apply bind_Ok in Hblock as (c & _ & Hblock). by inv_result.
    + cbn [mbind result_bind] in H. destruct (String.eqb _ "end"); [|by inv_result].
      apply bind_Ok in H as (c & _ & H).
      destruct ((c =? NUL) || (c =? ",") || (c =? ";"))%char; by inv_result.
Qed.

(** X17. A token without an identifier pushes nothing when it is
    handled, and neither does an end token, with or without an
    identifier: the text that a string or a word without identifier has
    matched is dropped, and the variables of the parser go through the
    transition of the token as they were. *)
Theorem no_identifier_no_push toks token input walk p w p' :
  try_tokens toks input walk p = Ok (Some token, w, p') →
  tok_identifier token = None ∨ name token = "end" →
  p' = next_state token p.
Proof.
  revert walk. induction toks as [|t toks IH]; intros walk H Hid; [done|].
  cbn [try_tokens] in H. apply bind_Ok in H as ([[[] w1] p1] & Ht & H).
  - inv_result. by eapply try_token_no_identifier.
  - apply try_token_unhandled in Ht as ->. by eapply IH.
Qed.

End NoIdentifier.

Lemma no_identifier_no_push_witness :
  {| state := MOVE; stack := empty_stack;
     json_output := None; dispatched := [] |}
  = next_state move_call (mk_token "'move" None MOVE 0) (start empty_stack).
Proof.
  apply (no_identifier_no_push move_call (move_tokens INITIAL)
           (mk_token "'move" None MOVE 0) "move left" 0 (start empty_stack) 4);
    [reflexivity | left; reflexivity].
Defined.

Lemma parse_command_last_dispatched_witness :
  parse_command move_call move_tokens 20 "move left, move right" empty_stack
  = Ok (default None (last [Some "move left"; Some "move right"])).
Proof.
  apply (parse_command_last_dispatched move_call move_tokens 20
           "move left, move right" empty_stack
           {| state := INITIAL; stack := empty_stack;
              json_output := Some "move right";
              dispatched := [Some "move left"; Some "move right"] |} []).
  reflexivity.
Defined.

(** ** The stack after a parse *)

Section AfterParse.
Variable GENERATED_call :
  nat → cmdp_state → list stack_entry → option string * cmdp_state.
Variable tokens : cmdp_state → list cmdp_token.

#[local] Abbreviation parse_run := (parse_run GENERATED_call tokens).

(** X19. When [parse_command] returns without an error message and the
    parser is in the state INITIAL, all ten slots of the stack are empty,
    whatever the stack held when the parse started: nothing is left for
    [get_string] to find in the next call of [parse_command]. *)
Theorem nothing_left_on_stack_after_parse fuel input stack0 p :
  length stack0 = 10 →
  parse_run fuel input stack0 = Ok (p, []) →
  state p = INITIAL →
  stack p = empty_stack ∧ ∀ id, get_string id (stack p) = None.
Proof.
  intros Hlen Hrun Hinit.
  apply parse_loop_clean in Hrun as [_ Hstack]; [| lia | done].
  rewrite (Hstack Hinit). split; [done|]. intros id. apply get_string_empty.
Qed.

End AfterParse.

Lemma nothing_left_on_stack_after_parse_witness :
  stack {| state := INITIAL; stack := empty_stack;
           json_output := Some "move up";
           dispatched := [Some "move up"] |} = empty_stack ∧
  ∀ id, get_string id
          (stack {| state := INITIAL; stack := empty_stack;
                    json_output := Some "move up";
                    dispatched := [Some "move up"] |}) = None.
Proof.
  apply (nothing_left_on_stack_after_parse move_call move_tokens 20
           "move left" (<[0 := entry "direction" "up"]> empty_stack));
    reflexivity.
Defined.

(** ** What a call finds on the stack *)

Section CallSeesStack.
Variable GENERATED_call :
  nat → cmdp_state → list stack_entry → option string * cmdp_state.

#[local] Abbreviation try_tokens := (try_tokens GENERATED_call).

(** X20. A call is made with a stack on which every identifier that was
    found before the token was handled is still found with the string it
    had: the capture of the token itself does not replace a pair that is
    on the stack already, be it from an earlier token or left there by an
    earlier parse. *)
Theorem call_finds_earlier_captures toks token input walk p w p' :
  packed (stack p) →
  try_tokens toks input walk p = Ok (Some token, w, p') →
  tok_next_state token = __CALL →
  ∃ stk,
    json_output p'
    = (GENERATED_call (call_identifier token) (state p) stk).1 ∧
    ∀ id v, get_string id (stack p) = Some v → get_string id stk = Some v.
Proof.
  intros [pushes Hholds] Htry Hcall.
  apply try_tokens_handled in Htry as (_ & p1 & Hp1 & ->).
  exists (stack p1). rewrite next_state_call by done.
  destruct Hp1 as (-> & _ & _ & [-> | (id' & s & Hpush)]); [done|].
  split; [done|]. intros id v Hfound.
  rewrite (holds_get_string _ _ _ (holds_push _ _ _ _ _ Hholds Hpush)).
  rewrite (holds_get_string _ _ _ Hholds) in Hfound.
  by rewrite first_pushed_app, Hfound.
Qed.

End CallSeesStack.

Lemma call_finds_earlier_captures_witness :
  ∃ stk,
    json_output {| state := INITIAL; stack := empty_stack;
                   json_output := Some "move up";
                   dispatched := [Some "move up"] |}
    = (move_call 7 MOVE stk).1 ∧
    ∀ id v,
      get_string id (<[0 := entry "direction" "up"]> empty_stack) = Some v →
      get_string id stk = Some v.
Proof.
  apply (call_finds_earlier_captures move_call (move_tokens MOVE)
           (mk_token "word" (Some "direction") __CALL 7) "move left" 5
           {| state := MOVE;
              stack := <[0 := entry "direction" "up"]> empty_stack;
              json_output := None; dispatched := [] |} 9).
  - exists [("direction", "up")]. split; [cbn; lia | reflexivity].
  - reflexivity.
  - reflexivity.
Defined.

(** ** Literals with an identifier *)

Section LiteralCapture.
Implicit Types (stk : list stack_entry) (pushes : list (string * string)).

Lemma holds_push_Ok pushes stk id s :
  holds pushes stk → length pushes < 10 →
  ∃ stk', push_string id s stk = Ok stk' ∧
          stk' !! length pushes = Some (entry id s).
Proof.
  intros [_ ->] Hfree.
  replace (10 - length pushes) with (S (10 - S (length pushes))) by lia.
  cbn [replicate].
  remember (map (fun '(id, s) => entry id s) pushes) as pre eqn:Hpre.
  remember (replicate (10 - S (length pushes)) null_entry) as post eqn:Hpost.
  assert (length pre = length pushes) as Hlen_pre
    by (by rewrite Hpre, length_map).
  assert (length (pre ++ null_entry :: post) = 10) as Hlen.
  { rewrite length_app, Hlen_pre, Hpost. cbn [length].
    rewrite length_replicate. lia. }
  exists (pre ++ entry id s :: post). split.
  - unfold push_string. rewrite <- Hlen. apply push_string_from_free; [|done].
    rewrite Hpre. apply Forall_forall.
    intros e [[id' s'] [-> _]]%list_elem_of_fmap. by eexists.
  - rewrite <- Hlen_pre. by rewrite list_lookup_middle.
Qed.

Lemma holds_push_full pushes stk id s :
  holds pushes stk → length pushes = 10 →
  push_string id s stk = Abort StackFull.
Proof.
  intros [_ ->] Hfull. rewrite Hfull. cbn [Nat.sub replicate].
  rewrite app_nil_r. unfold push_string.
  replace 10 with (length (map (fun '(id, s) => entry id s) pushes)) at 1
    by (by rewrite length_map).
  apply push_string_from_full, Forall_forall.
  intros e [[id' s'] [-> _]]%list_elem_of_fmap. by eexists.
Qed.

Variable GENERATED_call :
  nat → cmdp_state → list stack_entry → option string * cmdp_state.

#[local] Abbreviation next_state := (next_state GENERATED_call).
#[local] Abbreviation try_token := (try_token GENERATED_call).

(** C10. A literal that matches and has an identifier pushes its own
    text, the name of the token without the leading single quote, on the
    stack under that identifier, before the transition of the token.  On
    a stack that holds the pairs [pushes] the pair of the identifier and
    that text is stored in the first empty slot, after the pairs that
    are there and before the empty slots that are left; [get_string]
    then finds the text under the identifier, unless an older pair has
    the same identifier, and finds what it found before under every
    other identifier; and a token that calls makes its call with that
    stack.  When all ten slots are taken the process stops instead. *)
Theorem literal_pushes_its_text token input walk p lit id pushes :
  name token = String squote lit →
  tok_identifier token = Some id →
  strncasecmp input walk lit (strlen lit) = Ok true →
  holds pushes (stack p) →
  if decide (length pushes < 10) then
    ∃ stk',
      holds (pushes ++ [(id, lit)]) stk' ∧
      stk' !! length pushes = Some (entry id lit) ∧
      (∀ id0, get_string id0 stk'
              = match get_string id0 (stack p) with
                | Some v => Some v
                | None => if String.eqb id0 id then Some lit else None
                end) ∧
      try_token token input walk p
      = Ok (true, walk + strlen lit, next_state token (with_stack p stk')) ∧
      (tok_next_state token = __CALL →
       json_output (next_state token (with_stack p stk'))
       = (GENERATED_call (call_identifier token) (state p) stk').1)
  else try_token token input walk p = Abort StackFull.
Proof.
  intros Hname Hid Hcmp Hholds.
  assert (try_token token input walk p
          = (st ← push_string id lit (stack p);
             Ok (true, walk + strlen lit,
                 next_state token (with_stack p st)))) as Htry.
  { unfold try_token. rewrite Hname, Hid.
    replace (strlen (String squote lit) - 1) with (strlen lit)
      by (unfold strlen; cbn [String.length]; lia).
    cbn [char_at String.get tail]. rewrite Ascii.eqb_refl, Hcmp.
    unfold push. by destruct (push_string id lit (stack p)). }
  case_decide as Hfree.
  - destruct (holds_push_Ok pushes (stack p) id lit Hholds Hfree)
      as (stk' & Hpush & Hslot).
    pose proof (holds_push _ _ _ _ _ Hholds Hpush) as Hholds'.
    exists stk'. split_and!; [done | done | | |].
    + intros id0. rewrite (holds_get_string _ _ _ Hholds').
      rewrite (holds_get_string _ _ _ Hholds). apply first_pushed_app.
    + by rewrite Htry, Hpush.
    + intros Hcall. by rewrite next_state_call.
  - rewrite Htry, (holds_push_full pushes (stack p) id lit Hholds); [done|].
    destruct Hholds as [Hlen _]. lia.
Qed.

End LiteralCapture.

Lemma literal_pushes_its_text_witness :
  ∃ stk',
    holds ([("direction", "up")] ++ [("verb", "move")]) stk' ∧
    stk' !! 1 = Some (entry "verb" "move") ∧
    (∀ id0, get_string id0 stk'
            = match get_string id0
                      (<[0 := entry "direction" "up"]> empty_stack) with
              | Some v => Some v
              | None => if String.eqb id0 "verb" then Some "move" else None
              end) ∧
    try_token move_call (mk_token "'move" (Some "verb") __CALL 7) "MOVE left" 0
      (start (<[0 := entry "direction" "up"]> empty_stack))
    = Ok (true, 0 + strlen "move",
          next_state move_call (mk_token "'move" (Some "verb") __CALL 7)
            (with_stack (start (<[0 := entry "direction" "up"]> empty_stack))
               stk')) ∧
    (__CALL = __CALL →
     json_output
       (next_state move_call (mk_token "'move" (Some "verb") __CALL 7)
          (with_stack (start (<[0 := entry "direction" "up"]> empty_stack))
             stk'))
     = (move_call 7 INITIAL stk').1).
Proof.
  apply (literal_pushes_its_text move_call
           (mk_token "'move" (Some "verb") __CALL 7) "MOVE left" 0
           (start (<[0 := entry "direction" "up"]> empty_stack))
           "move" "verb" [("direction", "up")]).
  - reflexivity.
  - reflexivity.
  - reflexivity.
  - split; [cbn; lia | reflexivity].
Defined.
